(** * cpptrace: address-to-object resolution (src/binary/object.hpp)

    A shallow embedding of [cpptrace::detail]'s object resolver: the
    image-base cache [get_module_image_base], the Windows handle-to-path
    cache [get_module_name], the three build variants of
    [get_frame_object_info], the batch loop [get_frames_object_info] and
    [resolve_safe_object_frame].

    Conventions.
    - [frame_ptr] and [std::uintptr_t] are unsigned machine words: a value
      is a [Z], and every [+] and [-] of the source is followed by [wrap].
    - The two function-local [static std::unordered_map] caches are fields
      of an explicit [state] threaded through every call.  Each cache
      function holds its [std::mutex] from its first to its last statement,
      so a call is one atomic step on that state.
    - The operating system and the binary-format readers ([elf.hpp],
      [mach-o.hpp], [pe.hpp], which are included but not part of this
      file) are fields of a [world]: what each call answers at the moment
      it is made.  A module load or unload, or a file that becomes
      readable, is a change of [world] between two calls.
    - The preprocessor selection ([IS_LINUX], [IS_APPLE], [IS_WINDOWS],
      [CPPTRACE_HAS_DL_FIND_OBJECT]) is a [build] value.
    - A ghost [trace] records every call of a binary-format reader, every
      call of [GetModuleFileNameA] and every line written to [stderr]. *)

From Stdlib Require Import ZArith Lia.
From stdpp Require Import base option strings list gmap.

Local Open Scope Z_scope.

(* ===================================================================== *)
(** ** Machine words *)

Definition uintptr_bits : Z := 64.
Definition uintptr_modulus : Z := 2 ^ uintptr_bits.

(** Reduction of an integer to [std::uintptr_t]. *)
Definition wrap (z : Z) : Z := z mod uintptr_modulus.

(* ===================================================================== *)
(** ** Data *)

Definition frame_ptr : Type := Z.

(** The empty [std::string]. *)
Definition empty_path : string := EmptyString.

(** [struct object_frame { raw_address; object_address; object_path; }] *)
Record object_frame : Type := mk_object_frame {
  raw_address : frame_ptr;
  object_address : frame_ptr;
  object_path : string
}.

(** [struct safe_object_frame]: the field names of the source, the two
    shared with [object_frame] prefixed by [safe_]. *)
Record safe_object_frame : Type := mk_safe_object_frame {
  safe_raw_address : frame_ptr;
  address_relative_to_object_start : frame_ptr;
  safe_object_path : string
}.

(** [struct link_map] of [link.h]: [l_name] is a C string, [None] for
    [nullptr]; [l_addr] is the load bias, the "difference between the
    address in the ELF file and the addresses in memory", that is the
    module's runtime base minus its link-time base. *)
Record link_map : Type := mk_link_map {
  l_name : option string;
  l_addr : Z
}.

(** [struct dl_find_object], the part the resolver reads. *)
Record dl_find_object : Type := mk_dl_find_object {
  dlfo_link_map : link_map
}.

(** [Dl_info], the part the resolver reads. *)
Record Dl_info : Type := mk_Dl_info {
  dli_fname : string;
  dli_fbase : Z
}.

Definition HMODULE : Type := Z.

(* ===================================================================== *)
(** ** Build configuration and environment *)

Inductive os : Type := Linux | Apple | Windows.

Record build : Type := mk_build {
  target : os;
  CPPTRACE_HAS_DL_FIND_OBJECT : bool;
  (** Defined in [utils/common.hpp]. *)
  CPPTRACE_PATH_MAX : nat
}.

(** [MAX_PATH] of [windows.h]. *)
Definition MAX_PATH : nat := 260.

Record world : Type := mk_world {
  (** [elf_get_module_image_base(path)] of [elf.hpp]. *)
  elf_get_module_image_base : string -> Z;
  (** [mach_o(path).get_text_vmaddr()] of [mach-o.hpp]. *)
  mach_o_get_text_vmaddr : string -> Z;
  (** [pe_get_module_image_base(path)] of [pe.hpp]. *)
  pe_get_module_image_base : string -> Z;
  (** [_dl_find_object(address, &result)]: [Some result] when it
      returns 0. *)
  dl_find_object_query : frame_ptr -> option dl_find_object;
  (** [readlink(path, buffer, size)]: [None] when it returns -1, else
      the bytes written to the (zeroed) buffer. *)
  readlink : string -> nat -> option string;
  (** [dladdr(address, &info)]: [Some info] when it returns non-zero. *)
  dladdr : frame_ptr -> option Dl_info;
  (** [GetModuleHandleExA(UNCHANGED_REFCOUNT | FROM_ADDRESS, address,
      &handle)]: [Some handle] when it returns non-zero. *)
  GetModuleHandleExA : frame_ptr -> option HMODULE;
  (** [GetModuleFileNameA(handle, path, size)]: [None] when it
      returns 0, else the path written to the buffer. *)
  GetModuleFileNameA : HMODULE -> nat -> option string
}.

(** The reader behind the image-base cache of each target: the three
    copies of [get_module_image_base] differ in this call only. *)
Definition format_resolver (b : build) (w : world) : string -> Z :=
  match target b with
  | Linux => elf_get_module_image_base w
  | Apple => mach_o_get_text_vmaddr w
  | Windows => pe_get_module_image_base w
  end.

(* ===================================================================== *)
(** ** State: the two static caches and the ghost trace *)

Inductive event : Type :=
  | ParseBinary (path : string)
  | QueryModuleFileName (handle : HMODULE)
  | StderrLine.

#[global] Instance event_eq_dec : EqDecision event.
Proof. solve_decision. Defined.

Record state : Type := mk_state {
  image_base_cache : gmap string Z;
  module_name_cache : gmap Z string;
  trace : list event
}.

(** Process start: both caches empty, nothing called yet. *)
Definition initial_state : state :=
  {| image_base_cache := ∅; module_name_cache := ∅; trace := [] |}.

(** Number of times the binary-format reader was called on [p]. *)
Definition parse_count (p : string) (tr : list event) : nat :=
  length (filter (λ e, e = ParseBinary p) tr).

(** Number of times [GetModuleFileNameA] was called on [h]. *)
Definition file_name_query_count (h : HMODULE) (tr : list event) : nat :=
  length (filter (λ e, e = QueryModuleFileName h) tr).

(** *** A small state monad *)

Definition M (A : Type) : Type := state -> A * state.

Definition ret {A : Type} (a : A) : M A := λ st, (a, st).

Definition bind {A B : Type} (m : M A) (k : A -> M B) : M B :=
  λ st, let '(a, st') := m st in k a st'.

Notation "'let*' x := m 'in' k" := (bind m (λ x, k))
  (at level 10, x name, m at level 100, k at level 200).

(** Append an event to the ghost trace. *)
Definition emit (e : event) : M unit :=
  λ st, (tt, {| image_base_cache := image_base_cache st;
                module_name_cache := module_name_cache st;
                trace := trace st ++ [e] |}).

(* ===================================================================== *)
(** ** The image-base cache *)

(** [get_module_image_base] (lines 32-46, 48-65 and 133-147): find the
    path in the cache; on a miss call the reader, insert whatever it
    returned and return it; on a hit return the stored value. *)
Definition get_module_image_base (b : build) (w : world)
    (object_path : string) : M Z :=
  λ st,
    match image_base_cache st !! object_path with
    | None =>
        let base := format_resolver b w object_path in
        (base,
         {| image_base_cache := <[object_path := base]> (image_base_cache st);
            module_name_cache := module_name_cache st;
            trace := trace st ++ [ParseBinary object_path] |})
    | Some second => (second, st)
    end.

(* ===================================================================== *)
(** ** The Windows handle-to-path cache *)

(** [get_module_name] (lines 112-131): on a miss call
    [GetModuleFileNameA]; on success cache and return the path, on
    failure print the system error, cache the empty string and return
    it; on a hit return the stored string. *)
Definition get_module_name (w : world) (handle : HMODULE) : M string :=
  λ st,
    match module_name_cache st !! handle with
    | None =>
        match GetModuleFileNameA w handle MAX_PATH with
        | Some path =>
            (path,
             {| image_base_cache := image_base_cache st;
                module_name_cache := <[handle := path]> (module_name_cache st);
                trace := trace st ++ [QueryModuleFileName handle] |})
        | None =>
            (empty_path,
             {| image_base_cache := image_base_cache st;
                module_name_cache :=
                  <[handle := empty_path]> (module_name_cache st);
                trace := trace st ++ [QueryModuleFileName handle; StderrLine] |})
        end
    | Some second => (second, st)
    end.

(* ===================================================================== *)
(** ** One-shot resolution: the three variants *)

(** The frame every variant starts from: [raw_address = address],
    [object_address = 0], [object_path] default-constructed. *)
Definition unresolved_frame (address : frame_ptr) : object_frame :=
  {| raw_address := address; object_address := 0; object_path := empty_path |}.

(** The path assigned in the [_dl_find_object] variant (lines 75-87):
    [l_name] when it is neither null nor empty, else the target of
    [/proc/self/exe], else (when [readlink] fails) the path stays empty. *)
Definition proc_self_exe : string := "/proc/self/exe".

Definition dlfo_object_path (b : build) (w : world) (lm : link_map) : string :=
  match l_name lm with
  | Some (String c s) => String c s
  | _ =>
      match readlink w proc_self_exe (CPPTRACE_PATH_MAX b) with
      | Some buffer => buffer
      | None => empty_path
      end
  end.

(** Lines 68-93, [#ifdef CPPTRACE_HAS_DL_FIND_OBJECT]. *)
Definition get_frame_object_info_dl_find_object (b : build) (w : world)
    (address : frame_ptr) : M object_frame :=
  match dl_find_object_query w address with
  | Some result =>
      let path := dlfo_object_path b w (dlfo_link_map result) in
      let* base := get_module_image_base b w path in
      ret {| raw_address := address;
             object_address :=
               wrap (wrap (address - l_addr (dlfo_link_map result)) + base);
             object_path := path |}
  | None => ret (unresolved_frame address)
  end.

(** Lines 96-109, the [dladdr] variant. *)
Definition get_frame_object_info_dladdr (b : build) (w : world)
    (address : frame_ptr) : M object_frame :=
  match dladdr w address with
  | Some info =>
      let* base := get_module_image_base b w (dli_fname info) in
      ret {| raw_address := address;
             object_address := wrap (wrap (address - dli_fbase info) + base);
             object_path := dli_fname info |}
  | None => ret (unresolved_frame address)
  end.

(** Lines 149-168, the Windows variant. *)
Definition get_frame_object_info_windows (b : build) (w : world)
    (address : frame_ptr) : M object_frame :=
  match GetModuleHandleExA w address with
  | Some handle =>
      let* path := get_module_name w handle in
      let* base := get_module_image_base b w path in
      ret {| raw_address := address;
             object_address := wrap (wrap (address - handle) + base);
             object_path := path |}
  | None =>
      let* _ := emit StderrLine in
      ret (unresolved_frame address)
  end.

(** The variant the preprocessor keeps. *)
Definition get_frame_object_info (b : build) (w : world)
    (address : frame_ptr) : M object_frame :=
  match target b with
  | Windows => get_frame_object_info_windows b w address
  | _ =>
      if CPPTRACE_HAS_DL_FIND_OBJECT b
      then get_frame_object_info_dl_find_object b w address
      else get_frame_object_info_dladdr b w address
  end.

(* ===================================================================== *)
(** ** Batch resolution *)

(** The range-for of lines 174-176; [frames] is the vector built so far
    and [push_back] appends at its end. *)
Fixpoint get_frames_object_info_loop (b : build) (w : world)
    (addresses : list frame_ptr) (frames : list object_frame)
    : M (list object_frame) :=
  match addresses with
  | [] => ret frames
  | address :: rest =>
      let* frame := get_frame_object_info b w address in
      get_frames_object_info_loop b w rest (frames ++ [frame])
  end.

(** Lines 171-178. *)
Definition get_frames_object_info (b : build) (w : world)
    (addresses : list frame_ptr) : M (list object_frame) :=
  get_frames_object_info_loop b w addresses [].

(* ===================================================================== *)
(** ** Deferred resolution *)

(** Lines 180-186. *)
Definition resolve_safe_object_frame (b : build) (w : world)
    (frame : safe_object_frame) : M object_frame :=
  let* base := get_module_image_base b w (safe_object_path frame) in
  ret {| raw_address := safe_raw_address frame;
         object_address := wrap (address_relative_to_object_start frame + base);
         object_path := safe_object_path frame |}.

(* ===================================================================== *)
(** ** The module-lookup half of a resolution *)

(** The first half of [get_frame_object_info], up to and excluding the
    call of [get_module_image_base]: which module holds the address, its
    path and the base the variant subtracts ([dli_fbase], the module
    handle, or [l_addr] in the [_dl_find_object] variant).  [None] is
    the branch in which the operating-system lookup fails.  [get_frame_object_info_locate] below
    shows that the source function is this step followed by the cache
    call and the address arithmetic. *)
Definition locate (b : build) (w : world) (address : frame_ptr)
    : M (option (string * Z)) :=
  match target b with
  | Windows =>
      match GetModuleHandleExA w address with
      | Some handle =>
          let* path := get_module_name w handle in
          ret (Some (path, handle))
      | None =>
          let* _ := emit StderrLine in
          ret None
      end
  | _ =>
      if CPPTRACE_HAS_DL_FIND_OBJECT b
      then
        match dl_find_object_query w address with
        | Some result =>
            ret (Some (dlfo_object_path b w (dlfo_link_map result),
                       l_addr (dlfo_link_map result)))
        | None => ret None
        end
      else
        match dladdr w address with
        | Some info => ret (Some (dli_fname info, dli_fbase info))
        | None => ret None
        end
  end.

(** Modelled from the spec: [capture_safe], the first phase of the
    deferred protocol, is not in [object.hpp].  Section 4.5: it "performs
    only the Module Locator step; stores [address - runtime_base] and the
    module path"; section 4.1: a failed lookup is the "none" result, empty
    path and zero. *)
Definition capture_safe (b : build) (w : world) (address : frame_ptr)
    : M safe_object_frame :=
  let* found := locate b w address in
  ret match found with
      | Some (path, runtime_base) =>
          {| safe_raw_address := address;
             address_relative_to_object_start := wrap (address - runtime_base);
             safe_object_path := path |}
      | None =>
          {| safe_raw_address := address;
             address_relative_to_object_start := 0;
             safe_object_path := empty_path |}
      end.

(* ===================================================================== *)
(** ** A process lifetime *)

(** One call into the module.  Calls made by several threads are
    serialised by the two mutexes at the granularity of
    [CallImageBase] and [CallModuleName]; the other calls are sequences
    of those. *)
Inductive call : Type :=
  | CallImageBase (object_path : string)
  | CallModuleName (handle : HMODULE)
  | CallFrame (address : frame_ptr)
  | CallFrames (addresses : list frame_ptr)
  | CallResolveSafe (frame : safe_object_frame).

Definition run_call (b : build) (w : world) (c : call) (st : state) : state :=
  match c with
  | CallImageBase p => snd (get_module_image_base b w p st)
  | CallModuleName h => snd (get_module_name w h st)
  | CallFrame a => snd (get_frame_object_info b w a st)
  | CallFrames l => snd (get_frames_object_info b w l st)
  | CallResolveSafe f => snd (resolve_safe_object_frame b w f st)
  end.

(** A history: each call with the world it runs in. *)
Fixpoint run (b : build) (calls : list (world * call)) (st : state) : state :=
  match calls with
  | [] => st
  | (w, c) :: rest => run b rest (run_call b w c st)
  end.

(** The value the image-base cache answers for [p] in state [st]. *)
Definition image_base_of (b : build) (w : world) (st : state) (p : string) : Z :=
  match image_base_cache st !! p with
  | Some v => v
  | None => format_resolver b w p
  end.

(** The string the handle-to-path cache answers for [h] in state [st]. *)
Definition module_name_of (w : world) (st : state) (h : HMODULE) : string :=
  match module_name_cache st !! h with
  | Some s => s
  | None => default empty_path (GetModuleFileNameA w h MAX_PATH)
  end.

(* ===================================================================== *)
(** ** Vocabulary of the properties *)

(** The operating-system lookup of the build's variant finds no module. *)
Definition module_lookup_fails (b : build) (w : world) (a : frame_ptr) : Prop :=
  match target b with
  | Windows => GetModuleHandleExA w a = None
  | _ =>
      if CPPTRACE_HAS_DL_FIND_OBJECT b
      then dl_find_object_query w a = None
      else dladdr w a = None
  end.

(** Fully resolved (non-empty path), or unresolved (empty path and zero
    object address). *)
Definition resolved_or_unresolved (f : object_frame) : Prop :=
  object_path f ≠ empty_path
  ∨ (object_path f = empty_path ∧ object_address f = 0).

(** The path the module lookup yields for [a], if it finds a module. *)
Definition located_path (b : build) (w : world) (a : frame_ptr) (st : state)
    : option string :=
  fst <$> fst (locate b w a st).

(** [st'] holds everything [st] holds, and whatever it holds in addition
    is what the world [w] answers. *)
Definition cache_extends (b : build) (w : world) (st st' : state) : Prop :=
  (∀ p, image_base_cache st' !! p = image_base_cache st !! p
        ∨ (image_base_cache st !! p = None
           ∧ image_base_cache st' !! p = Some (format_resolver b w p)))
  ∧ (∀ h, module_name_cache st' !! h = module_name_cache st !! h
          ∨ (module_name_cache st !! h = None
             ∧ module_name_cache st' !! h
               = Some (default empty_path (GetModuleFileNameA w h MAX_PATH)))).

(** Every function of the module changes the state only through the two
    cache functions and the diagnostic print, so a state property kept
    by those three is kept by every call and every history. *)
Definition kept_by_primitives (b : build) (w : world) (P : state → Prop) : Prop :=
  (∀ p st, P st → P (snd (get_module_image_base b w p st)))
  ∧ (∀ h st, P st → P (snd (get_module_name w h st)))
  ∧ (∀ st, P st → P (snd (emit StderrLine st))).

(** Stored entries are never replaced or removed. *)
Definition entries_kept (st st' : state) : Prop :=
  (∀ p v, image_base_cache st !! p = Some v → image_base_cache st' !! p = Some v)
  ∧ (∀ h s, module_name_cache st !! h = Some s →
            module_name_cache st' !! h = Some s).

(** The reader has been called on [p] once if [p] is cached and never
    otherwise; likewise [GetModuleFileNameA] on each handle. *)
Definition calls_match_entries (st : state) : Prop :=
  (∀ p, parse_count p (trace st)
        = match image_base_cache st !! p with
          | Some _ => 1%nat
          | None => 0%nat
          end)
  ∧ (∀ h, file_name_query_count h (trace st)
          = match module_name_cache st !! h with
            | Some _ => 1%nat
            | None => 0%nat
            end).

(** "A later lookup for [p] is not forced to return the failed
    sentinel": after the fill in world [w], some later call, after some
    history and in some world, returns a base other than zero. *)
Definition reattempt_possible (b : build) (w : world) (p : string)
    (st : state) : Prop :=
  ∃ calls w',
    fst (get_module_image_base b w' p
           (run b calls (snd (get_module_image_base b w p st)))) ≠ 0.

(** *** Vocabulary of the further properties *)

(** A value that fits [std::uintptr_t]. *)
Definition is_word (z : Z) : Prop := 0 <= z < uintptr_modulus.

(** Kinds of events, and the number of events of a kind in a trace. *)
Definition is_reader_call (e : event) : bool :=
  match e with ParseBinary _ => true | _ => false end.

Definition is_file_name_query (e : event) : bool :=
  match e with QueryModuleFileName _ => true | _ => false end.

Definition is_stderr_line (e : event) : bool :=
  match e with StderrLine => true | _ => false end.

Definition count_events (kind : event → bool) (tr : list event) : nat :=
  length (List.filter kind tr).

(** The binary-format reader of world [w'] answers as that of [w]: the
    binaries on disk are the same. *)
Definition readers_agree (b : build) (w w' : world) : Prop :=
  ∀ p, format_resolver b w' p = format_resolver b w p.

(** [GetModuleFileNameA] answers in [w'] as in [w]. *)
Definition names_agree (w w' : world) : Prop :=
  ∀ h, GetModuleFileNameA w' h MAX_PATH = GetModuleFileNameA w h MAX_PATH.

(** Every stored image base is what the reader of [w] answers. *)
Definition image_bases_sound (b : build) (w : world) (st : state) : Prop :=
  ∀ p v, image_base_cache st !! p = Some v → v = format_resolver b w p.

(** Every stored module name is what [GetModuleFileNameA] answers in
    [w], the empty string standing for a failure. *)
Definition module_names_sound (w : world) (st : state) : Prop :=
  ∀ h s, module_name_cache st !! h = Some s →
         s = default empty_path (GetModuleFileNameA w h MAX_PATH).

(** [_dl_find_object] and [dladdr] describe the same module for [a], a
    module whose link-time base is [lb]: both fail, or both succeed
    with the same path (after the [/proc/self/exe] fallback), [dladdr]
    reporting the runtime base and [_dl_find_object] the load bias,
    which is the runtime base minus [lb]. *)
Definition loader_views_agree (b : build) (w : world) (a : frame_ptr)
    (lb : Z) : Prop :=
  match dl_find_object_query w a, dladdr w a with
  | Some result, Some info =>
      dlfo_object_path b w (dlfo_link_map result) = dli_fname info
      ∧ l_addr (dlfo_link_map result) = dli_fbase info - lb
  | None, None => True
  | _, _ => False
  end.

(* ===================================================================== *)
(** ** The scenario of the specification, section 8 *)

Module Scenario.

Definition main_path : string := "/usr/bin/main".
Definition libfoo_path : string := "/usr/lib/libfoo.so".

(** [main] at runtime base 0x1000 linked at 0, [libfoo] at runtime
    base 0x5000 linked at 0x400; each module spans 0x1000 bytes.
    [dladdr] reports the runtime base in [dli_fbase], a Windows module
    handle is the runtime base, and [_dl_find_object] reports the load
    bias in [l_addr]: 0x1000 for [main], 0x4c00 for [libfoo]. *)
Definition link_base (p : string) : Z :=
  if decide (p = main_path) then 0
  else if decide (p = libfoo_path) then 0x400
  else 0.

Definition module_at (a : Z) : option (string * Z) :=
  if decide (0x1000 <= a < 0x2000) then Some (main_path, 0x1000)
  else if decide (0x5000 <= a < 0x6000) then Some (libfoo_path, 0x5000)
  else None.

Definition handle_path (h : Z) : option string :=
  if decide (h = 0x1000) then Some main_path
  else if decide (h = 0x5000) then Some libfoo_path
  else None.

Definition w : world :=
  {| elf_get_module_image_base := link_base;
     mach_o_get_text_vmaddr := link_base;
     pe_get_module_image_base := link_base;
     dl_find_object_query := λ a,
       match module_at a with
       | Some (p, r) =>
           Some {| dlfo_link_map :=
                     {| l_name := if decide (p = main_path) then Some empty_path
                                  else Some p;
                        l_addr := r - link_base p |} |}
       | None => None
       end;
     readlink := λ p _,
       if decide (p = proc_self_exe) then Some main_path else None;
     dladdr := λ a,
       match module_at a with
       | Some (p, r) => Some {| dli_fname := p; dli_fbase := r |}
       | None => None
       end;
     GetModuleHandleExA := λ a, snd <$> module_at a;
     GetModuleFileNameA := λ h _, handle_path h |}.

(** The same process when [/proc] is not mounted and
    [GetModuleFileNameA] fails: path recovery fails, and the readers
    cannot open the empty path. *)
Definition w_no_path : world :=
  {| elf_get_module_image_base := link_base;
     mach_o_get_text_vmaddr := link_base;
     pe_get_module_image_base := link_base;
     dl_find_object_query := dl_find_object_query w;
     readlink := λ _ _, None;
     dladdr := dladdr w;
     GetModuleHandleExA := GetModuleHandleExA w;
     GetModuleFileNameA := λ _ _, None |}.

(** The same process while [libfoo.so] cannot be read: every reader
    answers the zero sentinel. *)
Definition w_unreadable : world :=
  {| elf_get_module_image_base := λ _, 0;
     mach_o_get_text_vmaddr := λ _, 0;
     pe_get_module_image_base := λ _, 0;
     dl_find_object_query := dl_find_object_query w;
     readlink := readlink w;
     dladdr := dladdr w;
     GetModuleHandleExA := GetModuleHandleExA w;
     GetModuleFileNameA := GetModuleFileNameA w |}.

Definition linux_dlfo : build :=
  {| target := Linux; CPPTRACE_HAS_DL_FIND_OBJECT := true;
     CPPTRACE_PATH_MAX := 4096 |}.
Definition linux_dladdr : build :=
  {| target := Linux; CPPTRACE_HAS_DL_FIND_OBJECT := false;
     CPPTRACE_PATH_MAX := 4096 |}.
Definition apple : build :=
  {| target := Apple; CPPTRACE_HAS_DL_FIND_OBJECT := false;
     CPPTRACE_PATH_MAX := 1024 |}.
Definition windows : build :=
  {| target := Windows; CPPTRACE_HAS_DL_FIND_OBJECT := false;
     CPPTRACE_PATH_MAX := 260 |}.

End Scenario.

(** The scenario's process started again: address-space layout
    randomisation has placed [libfoo] at runtime base 0x7000. *)
Module Relocated.

Definition module_at (a : Z) : option (string * Z) :=
  if decide (0x1000 <= a < 0x2000) then Some (Scenario.main_path, 0x1000)
  else if decide (0x7000 <= a < 0x8000) then Some (Scenario.libfoo_path, 0x7000)
  else None.

Definition w : world :=
  {| elf_get_module_image_base := Scenario.link_base;
     mach_o_get_text_vmaddr := Scenario.link_base;
     pe_get_module_image_base := Scenario.link_base;
     dl_find_object_query := λ a,
       match module_at a with
       | Some (p, r) =>
           Some {| dlfo_link_map :=
                     {| l_name := if decide (p = Scenario.main_path)
                                  then Some empty_path else Some p;
                        l_addr := r - Scenario.link_base p |} |}
       | None => None
       end;
     readlink := readlink Scenario.w;
     dladdr := λ a,
       match module_at a with
       | Some (p, r) => Some {| dli_fname := p; dli_fbase := r |}
       | None => None
       end;
     GetModuleHandleExA := λ a, snd <$> module_at a;
     GetModuleFileNameA := λ h _,
       if decide (h = 0x1000) then Some Scenario.main_path
       else if decide (h = 0x7000) then Some Scenario.libfoo_path
       else None |}.

End Relocated.

(* ===================================================================== *)
(** * Properties *)

(** ** The scenario, evaluated *)

Example scenario_main_dlfo :
  fst (get_frame_object_info Scenario.linux_dlfo Scenario.w 0x1050 initial_state)
  = {| raw_address := 0x1050; object_address := 0x50;
       object_path := Scenario.main_path |}.
Proof. vm_compute. reflexivity. Qed.

Example scenario_libfoo_dladdr :
  fst (get_frame_object_info Scenario.linux_dladdr Scenario.w 0x5080 initial_state)
  = {| raw_address := 0x5080; object_address := 0x480;
       object_path := Scenario.libfoo_path |}.
Proof. vm_compute. reflexivity. Qed.

Example scenario_libfoo_windows :
  fst (get_frame_object_info Scenario.windows Scenario.w 0x5080 initial_state)
  = {| raw_address := 0x5080; object_address := 0x480;
       object_path := Scenario.libfoo_path |}.
Proof. vm_compute. reflexivity. Qed.

Example scenario_outside_apple :
  fst (get_frame_object_info Scenario.apple Scenario.w 0x9000 initial_state)
  = {| raw_address := 0x9000; object_address := 0; object_path := empty_path |}.
Proof. vm_compute. reflexivity. Qed.

(* ===================================================================== *)
(** ** Word arithmetic *)

Lemma uintptr_modulus_pos : 0 < uintptr_modulus.
Proof. reflexivity. Qed.

Lemma wrap_add_l (x y : Z) : wrap (wrap x + y) = wrap (x + y).
Proof. unfold wrap. apply Zplus_mod_idemp_l. Qed.

Lemma wrap_small (x : Z) : 0 <= x < uintptr_modulus → wrap x = x.
Proof. intros H. unfold wrap. by apply Z.mod_small. Qed.

Lemma wrap_add_same_iff (x y : Z) : wrap (x + y) = wrap x ↔ wrap y = 0.
Proof.
  unfold wrap. pose proof uintptr_modulus_pos as Hpos. split; intros H.
  - replace y with ((x + y) - x) by lia.
    rewrite Zminus_mod, H, Z.sub_diag. by apply Z.mod_0_l, Z.neq_sym, Z.lt_neq.
  - rewrite Zplus_mod, H, Z.add_0_r. apply Zmod_mod.
Qed.

Lemma wrap_range (x : Z) : 0 <= wrap x < uintptr_modulus.
Proof. unfold wrap. apply Z.mod_pos_bound, uintptr_modulus_pos. Qed.

(* ===================================================================== *)
(** ** Counting events *)

Lemma parse_count_app p (t1 t2 : list event) :
  parse_count p (t1 ++ t2) = (parse_count p t1 + parse_count p t2)%nat.
Proof. unfold parse_count. by rewrite filter_app, length_app. Qed.

Lemma parse_count_parse p q :
  parse_count p [ParseBinary q] = if decide (q = p) then 1%nat else 0%nat.
Proof.
  unfold parse_count. case_decide as Hq.
  - subst q. by rewrite filter_cons_True.
  - rewrite filter_cons_False; [done | congruence].
Qed.

Lemma parse_count_other p e :
  (∀ q, e ≠ ParseBinary q) → parse_count p [e] = 0%nat.
Proof. intros He. unfold parse_count. by rewrite filter_cons_False. Qed.

Lemma file_name_query_count_app h (t1 t2 : list event) :
  file_name_query_count h (t1 ++ t2)
  = (file_name_query_count h t1 + file_name_query_count h t2)%nat.
Proof. unfold file_name_query_count. by rewrite filter_app, length_app. Qed.

Lemma file_name_query_count_query h k :
  file_name_query_count h [QueryModuleFileName k]
  = if decide (k = h) then 1%nat else 0%nat.
Proof.
  unfold file_name_query_count. case_decide as Hk.
  - subst k. by rewrite filter_cons_True.
  - rewrite filter_cons_False; [done | congruence].
Qed.

Lemma file_name_query_count_other h e :
  (∀ k, e ≠ QueryModuleFileName k) → file_name_query_count h [e] = 0%nat.
Proof. intros He. unfold file_name_query_count. by rewrite filter_cons_False. Qed.

(* ===================================================================== *)
(** ** What the two caches answer, and what they leave alone *)

(** Unfold the monad and the resolver down to the caches' matches. *)
Ltac unfold_resolver :=
  unfold get_frame_object_info, get_frame_object_info_windows,
    get_frame_object_info_dl_find_object, get_frame_object_info_dladdr,
    resolve_safe_object_frame, capture_safe, locate,
    unresolved_frame, emit, bind, ret in *.

Ltac unfold_caches :=
  unfold get_module_image_base, get_module_name, image_base_of,
    module_name_of in *.

Lemma get_module_image_base_value b w p st :
  fst (get_module_image_base b w p st) = image_base_of b w st p.
Proof. unfold_caches. by destruct (image_base_cache st !! p). Qed.

Lemma get_module_image_base_names b w p st :
  module_name_cache (snd (get_module_image_base b w p st)) = module_name_cache st.
Proof. unfold_caches. by destruct (image_base_cache st !! p). Qed.

Lemma get_module_name_value w h st :
  fst (get_module_name w h st) = module_name_of w st h.
Proof.
  unfold_caches. destruct (module_name_cache st !! h); [done|].
  by destruct (GetModuleFileNameA w h MAX_PATH).
Qed.

Lemma get_module_name_bases w h st :
  image_base_cache (snd (get_module_name w h st)) = image_base_cache st.
Proof.
  unfold_caches. destruct (module_name_cache st !! h); [done|].
  by destruct (GetModuleFileNameA w h MAX_PATH).
Qed.

Lemma locate_bases b w a st :
  image_base_cache (snd (locate b w a st)) = image_base_cache st.
Proof.
  unfold_resolver.
  destruct (target b), (CPPTRACE_HAS_DL_FIND_OBJECT b);
    repeat case_match; simplify_eq/=; try done;
    match goal with
    | H : get_module_name ?w ?h ?st = _ |- _ =>
        pose proof (get_module_name_bases w h st) as Hb; by rewrite H in Hb
    end.
Qed.

Lemma image_base_of_same_cache b w st st' p :
  image_base_cache st' = image_base_cache st →
  image_base_of b w st' p = image_base_of b w st p.
Proof. unfold image_base_of. by intros ->. Qed.

(** [get_frame_object_info] is the module lookup followed by the cache
    call and the address arithmetic, in every build. *)
Lemma get_frame_object_info_locate b w a st :
  get_frame_object_info b w a st =
  let '(found, st1) := locate b w a st in
  match found with
  | Some (p, r) =>
      let '(base, st2) := get_module_image_base b w p st1 in
      ({| raw_address := a;
          object_address := wrap (wrap (a - r) + base);
          object_path := p |}, st2)
  | None => (unresolved_frame a, st1)
  end.
Proof.
  unfold_resolver.
  destruct (target b), (CPPTRACE_HAS_DL_FIND_OBJECT b);
    repeat case_match; by simplify_eq/=.
Qed.

Lemma locate_None b w a st :
  fst (locate b w a st) = None ↔ module_lookup_fails b w a.
Proof.
  unfold module_lookup_fails. unfold_resolver.
  destruct (target b), (CPPTRACE_HAS_DL_FIND_OBJECT b);
    repeat case_match; by simplify_eq/=.
Qed.

(* ===================================================================== *)
(** ** Claims about one-shot resolution *)

(** The [dladdr] variant and the Windows variant translate as the
    specification says: with [r] the runtime base the operating system
    reports ([dli_fbase], the module handle) and [lb] the image base the
    cache answers, [object_address = a - r + lb]. *)
Lemma sibling_variants_object_address b w a st p r lb :
  fst (get_module_image_base b w p st) = lb →
  (target b ≠ Windows → CPPTRACE_HAS_DL_FIND_OBJECT b = false →
   dladdr w a = Some {| dli_fname := p; dli_fbase := r |} →
   fst (get_frame_object_info b w a st)
   = {| raw_address := a; object_address := wrap (a - r + lb);
        object_path := p |})
  ∧ (target b = Windows →
     GetModuleHandleExA w a = Some r →
     fst (get_module_name w r st) = p →
     fst (get_frame_object_info b w a st)
     = {| raw_address := a; object_address := wrap (a - r + lb);
          object_path := p |}).
Proof.
  intros Hbase. split.
  - intros Htarget Hflag Hdl. unfold get_frame_object_info.
    rewrite Hflag. destruct (target b); try done;
      unfold get_frame_object_info_dladdr, bind, ret; rewrite Hdl; simpl;
      destruct (get_module_image_base b w p st) as [base st1];
      simpl in *; subst base; by rewrite wrap_add_l.
  - intros Htarget Hhandle Hname.
    unfold get_frame_object_info, get_frame_object_info_windows, bind, ret.
    rewrite Htarget, Hhandle.
    pose proof (get_module_name_bases w r st) as Hsame.
    destruct (get_module_name w r st) as [path st0]. simpl in *. subst path.
    pose proof (get_module_image_base_value b w p st0) as Hv.
    rewrite (image_base_of_same_cache b w st st0 p Hsame),
      <- get_module_image_base_value, Hbase in Hv.
    destruct (get_module_image_base b w p st0) as [base st1].
    simpl in *. subst base. by rewrite wrap_add_l.
Qed.

(** C1, the [_dl_find_object] variant.  The claim is [object_address =
    a - r + lb] for a module with runtime base [r] and image base [lb].
    The loader reports in [l_addr] the load bias [r - lb], not [r]; the
    variant subtracts [l_addr] and then adds [get_module_image_base]
    as its siblings do, so the image base is counted twice: the frame
    carries [a - r + 2 * lb], which is not the claimed address for any
    module whose image base is not zero. *)
Theorem C1_dl_find_object_adds_image_base_twice b w a st result p r lb :
  target b ≠ Windows →
  CPPTRACE_HAS_DL_FIND_OBJECT b = true →
  dl_find_object_query w a = Some result →
  dlfo_object_path b w (dlfo_link_map result) = p →
  l_addr (dlfo_link_map result) = r - lb →
  fst (get_module_image_base b w p st) = lb →
  let frame := fst (get_frame_object_info b w a st) in
  object_path frame = p
  ∧ object_address frame = wrap (a - r + 2 * lb)
  ∧ (wrap lb ≠ 0 → object_address frame ≠ wrap (a - r + lb)).
Proof.
  intros Htarget Hflag Hquery Hpath Hbias Hbase. cbn zeta.
  assert (Hframe : fst (get_frame_object_info b w a st)
                   = {| raw_address := a;
                        object_address := wrap (a - r + 2 * lb);
                        object_path := p |}).
  { unfold get_frame_object_info. rewrite Hflag.
    destruct (target b); try done;
      unfold get_frame_object_info_dl_find_object, bind, ret;
      rewrite Hquery, Hpath, Hbias;
      destruct (get_module_image_base b w p st) as [base st1];
      simpl in *; subst base; rewrite wrap_add_l; do 2 f_equal; lia. }
  rewrite Hframe. simpl. split_and!; [done | done |].
  intros Hlb Heq. apply Hlb.
  apply (wrap_add_same_iff (a - r + lb) lb).
  rewrite <- Heq. f_equal. lia.
Qed.

Lemma C1_dl_find_object_adds_image_base_twice_witness :
  dl_find_object_query Scenario.w 0x5080
    = Some {| dlfo_link_map := {| l_name := Some Scenario.libfoo_path;
                                  l_addr := 0x5000 - 0x400 |} |}
  ∧ fst (get_module_image_base Scenario.linux_dlfo Scenario.w
           Scenario.libfoo_path initial_state) = 0x400
  ∧ object_address
      (fst (get_frame_object_info Scenario.linux_dlfo Scenario.w 0x5080
              initial_state)) = 0x880
  ∧ object_address
      (fst (get_frame_object_info Scenario.linux_dlfo Scenario.w 0x5080
              initial_state)) ≠ 0x480
  ∧ object_address
      (fst (get_frame_object_info Scenario.linux_dladdr Scenario.w 0x5080
              initial_state)) = 0x480.
Proof.
  assert (Hq : dl_find_object_query Scenario.w 0x5080
               = Some {| dlfo_link_map :=
                           {| l_name := Some Scenario.libfoo_path;
                              l_addr := 0x5000 - 0x400 |} |}) by reflexivity.
  assert (Hb : fst (get_module_image_base Scenario.linux_dlfo Scenario.w
                      Scenario.libfoo_path initial_state) = 0x400)
    by reflexivity.
  destruct (C1_dl_find_object_adds_image_base_twice Scenario.linux_dlfo
              Scenario.w 0x5080 initial_state _ Scenario.libfoo_path
              0x5000 0x400 ltac:(simpl; congruence) eq_refl Hq eq_refl
              eq_refl Hb) as (_ & Hval & Hne).
  split_and!; [exact Hq | exact Hb | exact Hval | | reflexivity].
  apply Hne. by vm_compute.
Defined.

(** C2. When the module lookup fails for [a], [get_frame_object_info a]
    returns normally with the frame [{a, 0, empty path}]; no cache is
    touched and no binary-format reader is called, so nothing that could
    raise runs. *)
Theorem C2_unlocated_address_unresolved b w a st :
  module_lookup_fails b w a →
  let '(frame, st') := get_frame_object_info b w a st in
  frame = unresolved_frame a
  ∧ object_path frame = empty_path
  ∧ object_address frame = 0
  ∧ image_base_cache st' = image_base_cache st
  ∧ module_name_cache st' = module_name_cache st
  ∧ (∀ p, parse_count p (trace st') = parse_count p (trace st)).
Proof.
  unfold module_lookup_fails. unfold_resolver. intros Hfail.
  destruct (target b), (CPPTRACE_HAS_DL_FIND_OBJECT b);
    rewrite Hfail; simpl; split_and!; try done;
    intros p; rewrite parse_count_app, parse_count_other by done; lia.
Qed.

Lemma C2_unlocated_address_unresolved_witness :
  module_lookup_fails Scenario.windows Scenario.w 0x9000
  ∧ fst (get_frame_object_info Scenario.windows Scenario.w 0x9000 initial_state)
    = unresolved_frame 0x9000.
Proof.
  assert (Hf : module_lookup_fails Scenario.windows Scenario.w 0x9000)
    by reflexivity.
  split; [exact Hf|].
  pose proof (C2_unlocated_address_unresolved Scenario.windows Scenario.w
                0x9000 initial_state Hf) as H.
  destruct (get_frame_object_info Scenario.windows Scenario.w 0x9000
              initial_state) as [frame st'].
  exact (proj1 H).
Defined.

(** C9. In every build and every branch (lookup succeeds, lookup fails,
    path recovery fails) the returned frame's [raw_address] is the input
    address. *)
Theorem C9_raw_address_preserved b w a st :
  raw_address (fst (get_frame_object_info b w a st)) = a.
Proof.
  rewrite get_frame_object_info_locate.
  destruct (locate b w a st) as [[[p r]|] st1]; [|done].
  by destruct (get_module_image_base b w p st1).
Qed.

(** C6. [resolve_safe_object_frame f] returns a frame whose
    [object_address] is [f.address_relative_to_object_start] plus the
    value the image-base cache returns for [f.object_path] (the stored
    value on a hit, the reader's on a miss); the raw address and the path
    are copied. *)
Theorem C6_resolve_safe_object_address b w f st :
  let frame := fst (resolve_safe_object_frame b w f st) in
  object_address frame
    = wrap (address_relative_to_object_start f
            + fst (get_module_image_base b w (safe_object_path f) st))
  ∧ fst (get_module_image_base b w (safe_object_path f) st)
    = match image_base_cache st !! safe_object_path f with
      | Some stored => stored
      | None => format_resolver b w (safe_object_path f)
      end
  ∧ raw_address frame = safe_raw_address f
  ∧ object_path frame = safe_object_path f.
Proof.
  cbn zeta. unfold resolve_safe_object_frame, bind, ret.
  rewrite get_module_image_base_value.
  pose proof (get_module_image_base_value b w (safe_object_path f) st) as Hv.
  destruct (get_module_image_base b w (safe_object_path f) st) as [base st'].
  simpl in *. by subst base.
Qed.

(* ===================================================================== *)
(** ** Resolution as a function of what the caches answer *)

Lemma locate_value b w a st :
  fst (locate b w a st) =
  match target b with
  | Windows =>
      match GetModuleHandleExA w a with
      | Some h => Some (module_name_of w st h, h)
      | None => None
      end
  | _ =>
      if CPPTRACE_HAS_DL_FIND_OBJECT b
      then
        match dl_find_object_query w a with
        | Some result =>
            Some (dlfo_object_path b w (dlfo_link_map result),
                  l_addr (dlfo_link_map result))
        | None => None
        end
      else
        match dladdr w a with
        | Some info => Some (dli_fname info, dli_fbase info)
        | None => None
        end
  end.
Proof.
  unfold_resolver.
  destruct (target b), (CPPTRACE_HAS_DL_FIND_OBJECT b);
    repeat case_match; simplify_eq/=; try done;
    match goal with
    | H : get_module_name ?w ?h ?st = _ |- _ =>
        pose proof (get_module_name_value w h st) as Hv; rewrite H in Hv;
        simpl in Hv; by subst
    end.
Qed.

Lemma get_frame_object_info_value b w a st :
  fst (get_frame_object_info b w a st) =
  match fst (locate b w a st) with
  | Some (p, r) =>
      {| raw_address := a;
         object_address := wrap (wrap (a - r) + image_base_of b w st p);
         object_path := p |}
  | None => unresolved_frame a
  end.
Proof.
  rewrite get_frame_object_info_locate.
  pose proof (locate_bases b w a st) as Hbases.
  destruct (locate b w a st) as [[[p r]|] st1]; simpl in *; [|done].
  pose proof (get_module_image_base_value b w p st1) as Hv.
  destruct (get_module_image_base b w p st1) as [base st2]. simpl in *.
  by rewrite Hv, (image_base_of_same_cache b w st st1 p Hbases).
Qed.

Lemma get_frame_object_info_unlocated b w a st :
  module_lookup_fails b w a →
  fst (get_frame_object_info b w a st) = unresolved_frame a.
Proof.
  intros Hfail. rewrite get_frame_object_info_value.
  by rewrite (proj2 (locate_None b w a st) Hfail).
Qed.

(* ===================================================================== *)
(** ** Cache growth under a fixed world *)

Section FixedWorld.

Variable b : build.
Variable w : world.

Lemma cache_extends_refl st : cache_extends b w st st.
Proof. split; intros; by left. Qed.

Lemma cache_extends_image_base st st' p :
  cache_extends b w st st' → image_base_of b w st' p = image_base_of b w st p.
Proof.
  intros [Hb _]. unfold image_base_of.
  destruct (Hb p) as [-> | [-> ->]]; done.
Qed.

Lemma cache_extends_module_name st st' h :
  cache_extends b w st st' → module_name_of w st' h = module_name_of w st h.
Proof.
  intros [_ Hn]. unfold module_name_of.
  destruct (Hn h) as [-> | [-> ->]]; done.
Qed.

Lemma cache_extends_get_module_image_base st st' p :
  cache_extends b w st st' →
  cache_extends b w st (snd (get_module_image_base b w p st')).
Proof.
  intros [Hb Hn]. unfold get_module_image_base.
  destruct (image_base_cache st' !! p) eqn:Hp; [done|].
  split; [|done]. simpl. intros q.
  destruct (decide (q = p)) as [->|Hne].
  - right. rewrite lookup_insert_eq. split; [|done].
    destruct (Hb p) as [Heq | [? ?]]; congruence.
  - rewrite lookup_insert_ne by done. apply Hb.
Qed.

Lemma cache_extends_get_module_name st st' h :
  cache_extends b w st st' →
  cache_extends b w st (snd (get_module_name w h st')).
Proof.
  intros [Hb Hn]. unfold get_module_name.
  destruct (module_name_cache st' !! h) eqn:Hh; [done|].
  assert (Hst : module_name_cache st !! h = None).
  { destruct (Hn h) as [Heq | [? ?]]; congruence. }
  destruct (GetModuleFileNameA w h MAX_PATH) eqn:Hq; simpl;
    (split; [done|]); simpl; intros k;
    (destruct (decide (k = h)) as [->|Hne];
      [ right; rewrite lookup_insert_eq, Hq; by split
      | rewrite lookup_insert_ne by done; apply Hn ]).
Qed.

Lemma cache_extends_emit st st' e :
  cache_extends b w st st' → cache_extends b w st (snd (emit e st')).
Proof. by intros [Hb Hn]. Qed.

Lemma cache_extends_locate st st' a :
  cache_extends b w st st' →
  fst (locate b w a st') = fst (locate b w a st)
  ∧ cache_extends b w st (snd (locate b w a st')).
Proof.
  intros Hext. split.
  - rewrite !locate_value.
    destruct (target b), (CPPTRACE_HAS_DL_FIND_OBJECT b); try done;
      destruct (GetModuleHandleExA w a); try done;
      by rewrite (cache_extends_module_name st st').
  - unfold locate.
    destruct (target b), (CPPTRACE_HAS_DL_FIND_OBJECT b);
      repeat case_match; try done; unfold bind, ret;
      try (by apply cache_extends_emit);
      match goal with
      | |- context [get_module_name ?w ?h ?s] =>
          pose proof (cache_extends_get_module_name st s h Hext);
          by destruct (get_module_name w h s)
      end.
Qed.

Lemma cache_extends_get_frame_object_info st st' a :
  cache_extends b w st st' →
  fst (get_frame_object_info b w a st') = fst (get_frame_object_info b w a st)
  ∧ cache_extends b w st (snd (get_frame_object_info b w a st')).
Proof.
  intros Hext.
  destruct (cache_extends_locate st st' a Hext) as [Hl Hext1].
  split.
  - rewrite !get_frame_object_info_value, Hl.
    destruct (fst (locate b w a st)) as [[p r]|]; [|done].
    by rewrite (cache_extends_image_base st st').
  - rewrite get_frame_object_info_locate.
    destruct (locate b w a st') as [[[p r]|] st1]; simpl in *; [|done].
    pose proof (cache_extends_get_module_image_base st st1 p Hext1).
    by destruct (get_module_image_base b w p st1).
Qed.

Lemma get_frames_object_info_loop_spec st addresses :
  ∀ frames st',
    cache_extends b w st st' →
    fst (get_frames_object_info_loop b w addresses frames st')
      = frames ++ map (λ a, fst (get_frame_object_info b w a st)) addresses
    ∧ cache_extends b w st
        (snd (get_frames_object_info_loop b w addresses frames st')).
Proof.
  induction addresses as [|a rest IH]; intros frames st' Hext; simpl.
  - unfold ret. simpl. by rewrite app_nil_r.
  - unfold bind.
    destruct (cache_extends_get_frame_object_info st st' a Hext) as [Hf Hext1].
    destruct (get_frame_object_info b w a st') as [frame st1]. simpl in *.
    destruct (IH (frames ++ [frame]) st1 Hext1) as [Hfs Hext2].
    split; [|done]. rewrite Hfs, Hf. by rewrite <- app_assoc.
Qed.

End FixedWorld.

(* ===================================================================== *)
(** ** Batch resolution *)

(** C7. [get_frames_object_info [a1; ...; an]] returns exactly [n]
    frames in input order, the [i]-th being the one-shot resolution of
    [ai] (taken in the state before the batch, or equally in the state
    after it); an address whose lookup fails yields its unresolved frame
    at its position and the others are resolved all the same. *)
Theorem C7_batch_is_pointwise b w addresses st :
  let '(frames, st') := get_frames_object_info b w addresses st in
  length frames = length addresses
  ∧ frames = map (λ a, fst (get_frame_object_info b w a st)) addresses
  ∧ (∀ (i : nat) a, addresses !! i = Some a →
       frames !! i = Some (fst (get_frame_object_info b w a st))
       ∧ frames !! i = Some (fst (get_frame_object_info b w a st'))
       ∧ (module_lookup_fails b w a → frames !! i = Some (unresolved_frame a))).
Proof.
  unfold get_frames_object_info.
  destruct (get_frames_object_info_loop_spec b w st addresses [] st
              (cache_extends_refl b w st)) as [Hfs Hext].
  destruct (get_frames_object_info_loop b w addresses [] st) as [frames st'].
  simpl in *. subst frames.
  split_and!; [by rewrite length_map | done |].
  intros i a Hi.
  assert (Hfi : map (λ a, fst (get_frame_object_info b w a st)) addresses !! i
                = Some (fst (get_frame_object_info b w a st))).
  { by rewrite list_lookup_fmap, Hi. }
  split_and!; [done | |].
  - rewrite Hfi. f_equal. symmetry.
    by apply (cache_extends_get_frame_object_info b w st st' a).
  - intros Hfail. rewrite Hfi. f_equal.
    by apply get_frame_object_info_unlocated.
Qed.

Lemma C7_batch_is_pointwise_witness :
  [0x1050; 0x9000; 0x5080] !! 2%nat = Some 0x5080
  ∧ fst (get_frames_object_info Scenario.windows Scenario.w
           [0x1050; 0x9000; 0x5080] initial_state) !! 2%nat
    = Some (fst (get_frame_object_info Scenario.windows Scenario.w 0x5080
                   initial_state)).
Proof.
  assert (Hi : [0x1050; 0x9000; 0x5080] !! 2%nat = Some 0x5080) by reflexivity.
  split; [exact Hi|].
  pose proof (C7_batch_is_pointwise Scenario.windows Scenario.w
                [0x1050; 0x9000; 0x5080] initial_state) as H.
  destruct (get_frames_object_info Scenario.windows Scenario.w
              [0x1050; 0x9000; 0x5080] initial_state) as [frames st'].
  destruct H as (_ & _ & H).
  exact (proj1 (H 2%nat 0x5080 Hi)).
Defined.

Example batch_scenario :
  fst (get_frames_object_info Scenario.linux_dladdr Scenario.w
         [0x1050; 0x9000; 0x5080; 0x1060] initial_state)
  = [ {| raw_address := 0x1050; object_address := 0x50;
         object_path := Scenario.main_path |};
      unresolved_frame 0x9000;
      {| raw_address := 0x5080; object_address := 0x480;
         object_path := Scenario.libfoo_path |};
      {| raw_address := 0x1060; object_address := 0x60;
         object_path := Scenario.main_path |} ].
Proof. vm_compute. reflexivity. Qed.

(* ===================================================================== *)
(** ** The deferred protocol against one-shot resolution *)

Lemma resolve_safe_object_frame_value b w f st :
  fst (resolve_safe_object_frame b w f st) =
  {| raw_address := safe_raw_address f;
     object_address :=
       wrap (address_relative_to_object_start f
             + image_base_of b w st (safe_object_path f));
     object_path := safe_object_path f |}.
Proof.
  unfold resolve_safe_object_frame, bind, ret.
  pose proof (get_module_image_base_value b w (safe_object_path f) st) as Hv.
  destruct (get_module_image_base b w (safe_object_path f) st) as [base st'].
  simpl in *. by subst base.
Qed.

Lemma capture_safe_locate b w a st :
  capture_safe b w a st =
  (match fst (locate b w a st) with
   | Some (p, r) =>
       {| safe_raw_address := a;
          address_relative_to_object_start := wrap (a - r);
          safe_object_path := p |}
   | None =>
       {| safe_raw_address := a;
          address_relative_to_object_start := 0;
          safe_object_path := empty_path |}
   end, snd (locate b w a st)).
Proof. unfold capture_safe, bind, ret. by destruct (locate b w a st). Qed.

(** The capture phase never calls a binary-format reader. *)
Lemma capture_safe_no_parse b w a st p :
  parse_count p (trace (snd (capture_safe b w a st))) = parse_count p (trace st).
Proof.
  rewrite capture_safe_locate. simpl. unfold locate, bind, ret, emit.
  destruct (target b), (CPPTRACE_HAS_DL_FIND_OBJECT b);
    repeat case_match; simplify_eq/=; try done;
    try (rewrite parse_count_app, parse_count_other by done; lia);
    match goal with
    | H : get_module_name ?w ?h ?st = _ |- _ =>
        unfold get_module_name in H; repeat case_match; simplify_eq/=;
        try done; rewrite parse_count_app
    end; unfold parse_count;
    repeat (rewrite filter_cons_False by done); rewrite filter_nil; simpl; lia.
Qed.



(** For an address inside a module the agreement needs no assumption. *)
Lemma safe_protocol_located b w a st p r :
  fst (locate b w a st) = Some (p, r) →
  fst (resolve_safe_object_frame b w (fst (capture_safe b w a st))
         (snd (capture_safe b w a st)))
  = fst (get_frame_object_info b w a st).
Proof.
  intros Hloc. rewrite capture_safe_locate. simpl.
  rewrite resolve_safe_object_frame_value, get_frame_object_info_value, Hloc.
  simpl. by rewrite (image_base_of_same_cache b w st _ p (locate_bases b w a st)).
Qed.

Example safe_protocol_scenario :
  fst (resolve_safe_object_frame Scenario.linux_dladdr Scenario.w
         (fst (capture_safe Scenario.linux_dladdr Scenario.w 0x5080 initial_state))
         (snd (capture_safe Scenario.linux_dladdr Scenario.w 0x5080 initial_state)))
  = {| raw_address := 0x5080; object_address := 0x480;
       object_path := Scenario.libfoo_path |}.
Proof. vm_compute. reflexivity. Qed.

(* ===================================================================== *)
(** ** Properties kept over a process lifetime *)

Section Kept.

Variable b : build.
Variable P : state → Prop.

Lemma kept_get_frame_object_info w a st :
  kept_by_primitives b w P → P st → P (snd (get_frame_object_info b w a st)).
Proof.
  intros (Hb & Hn & He) HP. unfold_resolver.
  destruct (target b), (CPPTRACE_HAS_DL_FIND_OBJECT b);
    repeat case_match; simplify_eq/=; try done;
    repeat match goal with
    | H : get_module_image_base ?b ?w ?p ?s = (_, ?s') |- _ =>
        assert (P s') by (pose proof (Hb p s) as Hs; rewrite H in Hs; auto);
        clear H
    | H : get_module_name ?w ?h ?s = (_, ?s') |- _ =>
        assert (P s') by (pose proof (Hn h s) as Hs; rewrite H in Hs; auto);
        clear H
    end; try done; by apply (He st).
Qed.

Lemma kept_get_frames_object_info_loop w addresses :
  kept_by_primitives b w P →
  ∀ frames st, P st →
    P (snd (get_frames_object_info_loop b w addresses frames st)).
Proof.
  intros Hk. induction addresses as [|a rest IH]; intros frames st HP; simpl.
  - done.
  - unfold bind.
    pose proof (kept_get_frame_object_info w a st Hk HP) as H1.
    destruct (get_frame_object_info b w a st) as [frame st1]. by apply IH.
Qed.

Lemma kept_resolve_safe_object_frame w f st :
  kept_by_primitives b w P → P st →
  P (snd (resolve_safe_object_frame b w f st)).
Proof.
  intros (Hb & _) HP. unfold resolve_safe_object_frame, bind, ret.
  pose proof (Hb (safe_object_path f) st HP) as H1.
  by destruct (get_module_image_base b w (safe_object_path f) st).
Qed.

Lemma kept_run_call w c st :
  kept_by_primitives b w P → P st → P (run_call b w c st).
Proof.
  intros Hk HP. destruct c as [p|h|a|l|f]; simpl.
  - by apply Hk.
  - by apply Hk.
  - by apply kept_get_frame_object_info.
  - by apply kept_get_frames_object_info_loop.
  - by apply kept_resolve_safe_object_frame.
Qed.

Lemma kept_run calls :
  (∀ w, kept_by_primitives b w P) → ∀ st, P st → P (run b calls st).
Proof.
  intros Hk. induction calls as [|[w c] rest IH]; intros st HP; simpl.
  - done.
  - apply IH. by apply kept_run_call.
Qed.

End Kept.

(** *** Stored entries are never replaced or removed *)

Lemma entries_kept_primitives b w st :
  kept_by_primitives b w (entries_kept st).
Proof.
  split_and!.
  - intros p st' [Hb Hn]. unfold get_module_image_base.
    destruct (image_base_cache st' !! p) eqn:Hp; [done|].
    split; [|done]. simpl. intros q v Hq.
    destruct (decide (q = p)) as [->|Hne].
    + apply Hb in Hq. congruence.
    + rewrite lookup_insert_ne by done. by apply Hb.
  - intros h st' [Hb Hn]. unfold get_module_name.
    destruct (module_name_cache st' !! h) eqn:Hh; [done|].
    destruct (GetModuleFileNameA w h MAX_PATH); (split; [done|]); simpl;
      intros k s' Hk;
      (destruct (decide (k = h)) as [->|Hne];
        [ apply Hn in Hk; unfold HMODULE in *; congruence
        | rewrite lookup_insert_ne by done; by apply Hn ]).
  - by intros st' [Hb Hn].
Qed.

Lemma entries_kept_run b calls st : entries_kept st (run b calls st).
Proof.
  apply kept_run; [intros w; apply entries_kept_primitives|].
  by split.
Qed.

(** *** Each reader call fills one entry *)

Lemma calls_match_entries_initial : calls_match_entries initial_state.
Proof. by split. Qed.

Lemma calls_match_entries_primitives b w :
  kept_by_primitives b w calls_match_entries.
Proof.
  split_and!.
  - intros p st [Hp Hh]. unfold get_module_image_base.
    destruct (image_base_cache st !! p) eqn:Hc; [done|].
    split; simpl.
    + intros q. rewrite parse_count_app, parse_count_parse, Hp.
      destruct (decide (p = q)) as [->|Hne].
      * by rewrite lookup_insert_eq, Hc.
      * by rewrite lookup_insert_ne by done; destruct (image_base_cache st !! q).
    + intros h. rewrite file_name_query_count_app,
        file_name_query_count_other by done. rewrite Hh. lia.
  - intros h st [Hp Hh]. unfold get_module_name.
    destruct (module_name_cache st !! h) eqn:Hc; [done|].
    destruct (GetModuleFileNameA w h MAX_PATH); split; simpl.
    + intros p. rewrite parse_count_app, parse_count_other by done.
      rewrite Hp. lia.
    + intros k. rewrite file_name_query_count_app,
        file_name_query_count_query, Hh.
      destruct (decide (h = k)) as [->|Hne].
      * by rewrite lookup_insert_eq, Hc.
      * by rewrite lookup_insert_ne by done; destruct (module_name_cache st !! k).
    + intros p. rewrite (parse_count_app p (trace st)). unfold parse_count.
      rewrite !filter_cons_False, filter_nil by done. simpl.
      fold (parse_count p (trace st)). rewrite Hp. lia.
    + intros k.
      change [QueryModuleFileName h; StderrLine]
        with ([QueryModuleFileName h] ++ [StderrLine]).
      rewrite !file_name_query_count_app, file_name_query_count_query,
        (file_name_query_count_other k StderrLine), Hh by done.
      destruct (decide (h = k)) as [->|Hne].
      * by rewrite lookup_insert_eq, Hc.
      * by rewrite lookup_insert_ne by done; destruct (module_name_cache st !! k).
  - intros st [Hp Hh]. split; simpl.
    + intros p. rewrite parse_count_app, parse_count_other by done.
      rewrite Hp. lia.
    + intros h. rewrite file_name_query_count_app,
        file_name_query_count_other by done. rewrite Hh. lia.
Qed.

Lemma calls_match_entries_run b calls :
  calls_match_entries (run b calls initial_state).
Proof.
  apply kept_run;
    [intros w; apply calls_match_entries_primitives
    | apply calls_match_entries_initial].
Qed.

(** A cache hit returns the stored value and changes nothing. *)
Lemma get_module_image_base_hit b w p st v :
  image_base_cache st !! p = Some v → get_module_image_base b w p st = (v, st).
Proof. intros H. unfold get_module_image_base. by rewrite H. Qed.

Lemma get_module_name_hit w h st s :
  module_name_cache st !! h = Some s → get_module_name w h st = (s, st).
Proof. intros H. unfold get_module_name. by rewrite H. Qed.

(** After a call the key is cached with the returned value. *)
Lemma get_module_image_base_stored b w p st :
  image_base_cache (snd (get_module_image_base b w p st)) !! p
  = Some (fst (get_module_image_base b w p st)).
Proof.
  unfold get_module_image_base.
  destruct (image_base_cache st !! p) eqn:Hp; simpl; [done|].
  by rewrite lookup_insert_eq.
Qed.

Lemma get_module_name_stored w h st :
  module_name_cache (snd (get_module_name w h st)) !! h
  = Some (fst (get_module_name w h st)).
Proof.
  unfold get_module_name.
  destruct (module_name_cache st !! h) eqn:Hh; simpl; [done|].
  destruct (GetModuleFileNameA w h MAX_PATH); simpl; by rewrite lookup_insert_eq.
Qed.

(* ===================================================================== *)
(** ** Claims about the caches *)



Example two_addresses_one_parse :
  let st := run Scenario.linux_dlfo
              [(Scenario.w, CallFrame 0x1050); (Scenario.w, CallFrame 0x1060);
               (Scenario.w, CallFrames [0x1070; 0x5080; 0x1080])]
              initial_state in
  parse_count Scenario.main_path (trace st) = 1%nat
  ∧ parse_count Scenario.libfoo_path (trace st) = 1%nat.
Proof. vm_compute. split; reflexivity. Qed.

(** C10.  On Windows [get_module_name] memoizes the handle-to-path
    lookup per handle, failures included.  Over any history from process
    start [GetModuleFileNameA] is called at most once per handle.  On a
    miss the function makes exactly one call: when it succeeds, the path
    the operating system wrote is returned and cached; when it fails,
    the empty string is returned and cached.  On a hit the stored string
    is returned and nothing changes.  Either way the string of the first
    call is what every later call for that handle returns, after any
    history and in any world (also one where the call would now answer
    differently), with no further operating-system call. *)
Theorem C10_module_name_memoized_with_failure b :
  (∀ calls h,
     (file_name_query_count h (trace (run b calls initial_state)) <= 1)%nat)
  ∧ (∀ w h st,
       let '(s, st1) := get_module_name w h st in
       module_name_cache st1 !! h = Some s
       ∧ ∀ calls w',
           get_module_name w' h (run b calls st1) = (s, run b calls st1))
  ∧ (∀ w h st,
       module_name_cache st !! h = None →
       GetModuleFileNameA w h MAX_PATH = None →
       let '(s, st1) := get_module_name w h st in
       s = empty_path
       ∧ module_name_cache st1 !! h = Some empty_path
       ∧ ∀ calls w',
           get_module_name w' h (run b calls st1)
           = (empty_path, run b calls st1))
  ∧ (∀ w h st path,
       module_name_cache st !! h = None →
       GetModuleFileNameA w h MAX_PATH = Some path →
       let '(s, st1) := get_module_name w h st in
       s = path
       ∧ module_name_cache st1 !! h = Some path
       ∧ ∀ calls w',
           get_module_name w' h (run b calls st1)
           = (path, run b calls st1))
  ∧ (∀ w h st,
       module_name_cache st !! h = None →
       file_name_query_count h (trace (snd (get_module_name w h st)))
       = S (file_name_query_count h (trace st)))
  ∧ (∀ w h st s,
       module_name_cache st !! h = Some s →
       get_module_name w h st = (s, st)).
Proof.
  assert (Hmemo : ∀ w h st,
            let '(s, st1) := get_module_name w h st in
            module_name_cache st1 !! h = Some s
            ∧ ∀ calls w',
                get_module_name w' h (run b calls st1) = (s, run b calls st1)).
  { intros w h st.
    pose proof (get_module_name_stored w h st) as Hs.
    destruct (get_module_name w h st) as [s st1]. simpl in Hs.
    split; [done|]. intros calls w'.
    apply get_module_name_hit.
    by apply (entries_kept_run b calls st1). }
  assert (Hfirst : ∀ w h st answer,
            module_name_cache st !! h = None →
            default empty_path (GetModuleFileNameA w h MAX_PATH) = answer →
            let '(s, st1) := get_module_name w h st in
            s = answer
            ∧ module_name_cache st1 !! h = Some answer
            ∧ ∀ calls w',
                get_module_name w' h (run b calls st1)
                = (answer, run b calls st1)).
  { intros w h st answer Hmiss Hanswer.
    specialize (Hmemo w h st).
    pose proof (get_module_name_value w h st) as Hv.
    unfold module_name_of in Hv. rewrite Hmiss, Hanswer in Hv.
    destruct (get_module_name w h st) as [s st1]. simpl in Hv. subst s.
    by destruct Hmemo. }
  split_and!.
  - intros calls h.
    destruct (calls_match_entries_run b calls) as [_ Hh].
    rewrite Hh. destruct (module_name_cache _ !! h); lia.
  - exact Hmemo.
  - intros w h st Hmiss Hfail. apply Hfirst; [done | by rewrite Hfail].
  - intros w h st path Hmiss Hok. apply Hfirst; [done | by rewrite Hok].
  - intros w h st Hmiss. unfold get_module_name. rewrite Hmiss.
    destruct (GetModuleFileNameA w h MAX_PATH); simpl.
    + rewrite file_name_query_count_app, file_name_query_count_query.
      rewrite decide_True by done. lia.
    + change [QueryModuleFileName h; StderrLine]
        with ([QueryModuleFileName h] ++ [StderrLine]).
      rewrite !file_name_query_count_app, file_name_query_count_query,
        (file_name_query_count_other h StderrLine) by done.
      rewrite decide_True by done. lia.
  - intros w h st s Hhit. by apply get_module_name_hit.
Qed.

Lemma C10_module_name_memoized_with_failure_witness :
  module_name_cache initial_state !! 0x5000 = None
  ∧ GetModuleFileNameA Scenario.w_no_path 0x5000 MAX_PATH = None
  ∧ GetModuleFileNameA Scenario.w 0x5000 MAX_PATH = Some Scenario.libfoo_path
  ∧ fst (get_module_name Scenario.w 0x5000
           (snd (get_module_name Scenario.w_no_path 0x5000 initial_state)))
    = empty_path
  ∧ fst (get_module_name Scenario.w 0x5000 initial_state)
    = Scenario.libfoo_path
  ∧ fst (get_module_name Scenario.w_no_path 0x5000
           (snd (get_module_name Scenario.w 0x5000 initial_state)))
    = Scenario.libfoo_path.
Proof.
  assert (Hm : module_name_cache initial_state !! 0x5000 = None) by reflexivity.
  assert (Hf : GetModuleFileNameA Scenario.w_no_path 0x5000 MAX_PATH = None)
    by reflexivity.
  assert (Ho : GetModuleFileNameA Scenario.w 0x5000 MAX_PATH
               = Some Scenario.libfoo_path) by reflexivity.
  destruct (C10_module_name_memoized_with_failure Scenario.windows)
    as (_ & _ & Hfail & Hok & _ & _).
  specialize (Hfail Scenario.w_no_path 0x5000 initial_state Hm Hf).
  specialize (Hok Scenario.w 0x5000 initial_state Scenario.libfoo_path Hm Ho).
  destruct (get_module_name Scenario.w_no_path 0x5000 initial_state)
    as [s1 st1].
  destruct (get_module_name Scenario.w 0x5000 initial_state) as [s2 st2].
  destruct Hfail as (_ & _ & Hfail). destruct Hok as (Hs2 & _ & Hok).
  split_and!; [exact Hm | exact Hf | exact Ho | | exact Hs2 |].
  - exact (f_equal fst (Hfail [] Scenario.w)).
  - exact (f_equal fst (Hok [] Scenario.w_no_path)).
Defined.

(** *** A failed parse is cached like any other *)

(** Whatever the cache holds for [p] after a call is held, and
    answered, for the rest of the process. *)
Lemma image_base_entry_sticks b p v st :
  image_base_cache st !! p = Some v →
  ∀ calls w,
    get_module_image_base b w p (run b calls st) = (v, run b calls st).
Proof.
  intros Hp calls w. apply get_module_image_base_hit.
  by apply (entries_kept_run b calls st).
Qed.

(** C8, as stated, fails: [libfoo.so] is unreadable at the first lookup
    (the reader answers the zero sentinel) and readable afterwards (the
    reader would answer 0x400); the cache has stored the zero, no later
    lookup can return anything else, and the lookup in the repaired
    world returns zero without calling the reader. *)
Lemma C8_poisoned_entry_counterexample :
  let b := Scenario.linux_dladdr in
  let p := Scenario.libfoo_path in
  let st1 := snd (get_module_image_base b Scenario.w_unreadable p initial_state) in
  image_base_cache initial_state !! p = None
  ∧ format_resolver b Scenario.w_unreadable p = 0
  ∧ format_resolver b Scenario.w p = 0x400
  ∧ image_base_cache st1 !! p = Some 0
  ∧ get_module_image_base b Scenario.w p st1 = (0, st1)
  ∧ parse_count p (trace (snd (get_module_image_base b Scenario.w p st1))) = 1%nat
  ∧ ¬ reattempt_possible b Scenario.w_unreadable p initial_state.
Proof.
  cbn zeta. split_and!; try reflexivity.
  intros (calls & w' & Hne). apply Hne.
  by rewrite (image_base_entry_sticks Scenario.linux_dladdr
                Scenario.libfoo_path 0).
Qed.

(** C8, amended.  When the reader fails for a path that is not cached
    and returns the zero sentinel, [get_module_image_base] stores the
    zero like any other base, and every later lookup for that path in
    the same process, after any history and in any world, returns zero
    from the cache without calling the reader again; only a new process,
    which starts from an empty cache, parses the file again. *)
Theorem C8_failed_parse_is_cached b w p st :
  image_base_cache st !! p = None →
  format_resolver b w p = 0 →
  let '(v, st1) := get_module_image_base b w p st in
  v = 0
  ∧ image_base_cache st1 !! p = Some 0
  ∧ (∀ calls w',
       get_module_image_base b w' p (run b calls st1) = (0, run b calls st1))
  ∧ (∀ w', fst (get_module_image_base b w' p initial_state)
           = format_resolver b w' p).
Proof.
  intros Hmiss Hfail.
  pose proof (get_module_image_base_stored b w p st) as Hs.
  pose proof (get_module_image_base_value b w p st) as Hv.
  unfold image_base_of in Hv. rewrite Hmiss, Hfail in Hv.
  destruct (get_module_image_base b w p st) as [v st1]. simpl in *. subst v.
  split_and!; [done | done | by apply image_base_entry_sticks | done].
Qed.

Lemma C8_failed_parse_is_cached_witness :
  image_base_cache initial_state !! Scenario.libfoo_path = None
  ∧ format_resolver Scenario.linux_dladdr Scenario.w_unreadable
      Scenario.libfoo_path = 0
  ∧ fst (get_module_image_base Scenario.linux_dladdr Scenario.w
           Scenario.libfoo_path
           (snd (get_module_image_base Scenario.linux_dladdr
                   Scenario.w_unreadable Scenario.libfoo_path initial_state)))
    = 0.
Proof.
  assert (Hm : image_base_cache initial_state !! Scenario.libfoo_path = None)
    by reflexivity.
  assert (Hf : format_resolver Scenario.linux_dladdr Scenario.w_unreadable
                 Scenario.libfoo_path = 0) by reflexivity.
  split_and!; [exact Hm | exact Hf |].
  pose proof (C8_failed_parse_is_cached Scenario.linux_dladdr
                Scenario.w_unreadable Scenario.libfoo_path initial_state
                Hm Hf) as H.
  destruct (get_module_image_base Scenario.linux_dladdr Scenario.w_unreadable
              Scenario.libfoo_path initial_state) as [v st1].
  destruct H as (_ & _ & H & _).
  exact (f_equal fst (H [] Scenario.w)).
Defined.

(* ===================================================================== *)
(** ** The two states of a frame *)

(** C4.  The code breaks the two-state invariant where the lookup finds
    the module and path recovery fails, a case the source itself marks
    as unhandled ([TODO: Caching and proper handling], and the empty
    [// error handling?] branch after [readlink]), while the sibling
    branch for a failed lookup leaves [{a, 0, empty path}].  With
    [_dl_find_object], [0x1050] lies in the main executable ([l_name]
    empty) and [readlink] on [/proc/self/exe] fails; on Windows,
    [0x5080] has module handle [0x5000] and [GetModuleFileNameA] fails.
    Either frame has the empty path and a non-zero object address. *)
Lemma C4_empty_path_nonzero_address_counterexample :
  fst (get_frame_object_info Scenario.linux_dlfo Scenario.w_no_path 0x1050
         initial_state)
  = {| raw_address := 0x1050; object_address := 0x50;
       object_path := empty_path |}
  ∧ fst (get_frame_object_info Scenario.windows Scenario.w_no_path 0x5080
           initial_state)
    = {| raw_address := 0x5080; object_address := 0x80;
         object_path := empty_path |}
  ∧ ¬ resolved_or_unresolved
        (fst (get_frame_object_info Scenario.linux_dlfo Scenario.w_no_path
                0x1050 initial_state))
  ∧ ¬ resolved_or_unresolved
        (fst (get_frame_object_info Scenario.windows Scenario.w_no_path
                0x5080 initial_state)).
Proof.
  split_and!; [reflexivity | reflexivity | |];
    intros [Hpath | [_ Haddr]]; vm_compute in *; congruence.
Qed.

(* ===================================================================== *)
(** * Further properties of the resolver *)

(** ** Histories in restricted worlds *)

Lemma kept_run_Forall b (P : state → Prop) calls :
  Forall (λ wc : world * call, kept_by_primitives b wc.1 P) calls →
  ∀ st, P st → P (run b calls st).
Proof.
  induction calls as [|[w c] rest IH]; intros Hall st HP; simpl; [done|].
  apply Forall_cons in Hall as [Hw Hrest].
  apply IH; [done|]. by apply kept_run_call.
Qed.

Lemma image_bases_sound_primitives b w w' :
  readers_agree b w w' → kept_by_primitives b w' (image_bases_sound b w).
Proof.
  intros Hagree. split_and!.
  - intros p st Hs. unfold get_module_image_base.
    destruct (image_base_cache st !! p) eqn:Hp; [done|].
    intros q v. simpl. destruct (decide (q = p)) as [->|Hne].
    + rewrite lookup_insert_eq. intros [= <-]. apply Hagree.
    + rewrite lookup_insert_ne by done. apply Hs.
  - intros h st Hs q v. rewrite get_module_name_bases. apply Hs.
  - intros st Hs. exact Hs.
Qed.

Lemma module_names_sound_primitives b w w' :
  names_agree w w' → kept_by_primitives b w' (module_names_sound w).
Proof.
  intros Hagree. split_and!.
  - intros p st Hs h s. rewrite get_module_image_base_names. apply Hs.
  - intros h st Hs. unfold get_module_name.
    destruct (module_name_cache st !! h) eqn:Hh; [done|].
    pose proof (Hagree h) as Hq.
    destruct (GetModuleFileNameA w' h MAX_PATH) eqn:Hw'; simpl;
      intros k s'; simpl; (destruct (decide (k = h)) as [->|Hne];
        [ rewrite lookup_insert_eq; intros [= <-]; by rewrite <- Hq
        | rewrite lookup_insert_ne by done; apply Hs ]).
  - intros st Hs. exact Hs.
Qed.

Lemma image_bases_sound_run b w calls :
  Forall (λ wc : world * call, readers_agree b w wc.1) calls →
  image_bases_sound b w (run b calls initial_state).
Proof.
  intros Hall. apply kept_run_Forall; [|by intros p v].
  eapply Forall_impl; [exact Hall|].
  intros [w' c] Hagree. by apply image_bases_sound_primitives.
Qed.

Lemma module_names_sound_run b w calls :
  Forall (λ wc : world * call, names_agree w wc.1) calls →
  module_names_sound w (run b calls initial_state).
Proof.
  intros Hall. apply kept_run_Forall; [|by intros h s].
  eapply Forall_impl; [exact Hall|].
  intros [w' c] Hagree. by apply module_names_sound_primitives.
Qed.

Lemma sound_caches_extend_initial b w st :
  image_bases_sound b w st → module_names_sound w st →
  cache_extends b w initial_state st.
Proof.
  intros Hb Hn. split.
  - intros p. destruct (image_base_cache st !! p) as [v|] eqn:Hp.
    + right. split; [done|]. by rewrite (Hb p v Hp).
    + by left.
  - intros h. destruct (module_name_cache st !! h) as [s|] eqn:Hh.
    + right. split; [done|]. by rewrite (Hn h s Hh).
    + by left.
Qed.

(** X1.  The image-base cache is transparent: after any history from
    process start during which the binaries on disk answer as in [w]
    (modules may load and unload meanwhile), [get_module_image_base p]
    in [w] returns exactly what the binary-format reader answers for
    [p], whether or not [p] has been asked before. *)
Theorem X1_image_base_cache_transparent b w calls p :
  Forall (λ wc : world * call, readers_agree b w wc.1) calls →
  fst (get_module_image_base b w p (run b calls initial_state))
  = format_resolver b w p.
Proof.
  intros Hall. rewrite get_module_image_base_value. unfold image_base_of.
  pose proof (image_bases_sound_run b w calls Hall) as Hs.
  destruct (image_base_cache _ !! p) as [v|] eqn:Hp; [|done].
  by apply Hs.
Qed.

Lemma X1_image_base_cache_transparent_witness :
  fst (get_module_image_base Scenario.linux_dladdr Scenario.w
         Scenario.libfoo_path
         (run Scenario.linux_dladdr
            [(Scenario.w, CallFrame 0x5080);
             (Scenario.w_no_path, CallFrames [0x1050; 0x5090])]
            initial_state))
  = 0x400.
Proof.
  apply (X1_image_base_cache_transparent Scenario.linux_dladdr Scenario.w
           [(Scenario.w, CallFrame 0x5080);
            (Scenario.w_no_path, CallFrames [0x1050; 0x5090])]
           Scenario.libfoo_path).
  repeat constructor.
Defined.

(** X2.  The handle-to-path cache is transparent in the same sense:
    after any history from process start during which
    [GetModuleFileNameA] answers as in [w], [get_module_name h] in [w]
    returns the path the operating system gives for [h], or the empty
    string when the call fails. *)
Theorem X2_module_name_cache_transparent b w calls h :
  Forall (λ wc : world * call, names_agree w wc.1) calls →
  fst (get_module_name w h (run b calls initial_state))
  = default empty_path (GetModuleFileNameA w h MAX_PATH).
Proof.
  intros Hall. rewrite get_module_name_value. unfold module_name_of.
  pose proof (module_names_sound_run b w calls Hall) as Hs.
  destruct (module_name_cache _ !! h) as [s|] eqn:Hh; [|done].
  by apply Hs.
Qed.

Lemma X2_module_name_cache_transparent_witness :
  fst (get_module_name Scenario.w 0x5000
         (run Scenario.windows
            [(Scenario.w, CallFrame 0x5080); (Scenario.w, CallModuleName 0x7000)]
            initial_state))
  = Scenario.libfoo_path.
Proof.
  apply (X2_module_name_cache_transparent Scenario.windows Scenario.w
           [(Scenario.w, CallFrame 0x5080); (Scenario.w, CallModuleName 0x7000)]
           0x5000).
  repeat constructor.
Defined.

(** X3.  A resolution does not depend on what was resolved before: after
    any history from process start during which the binaries and
    [GetModuleFileNameA] answer as in [w], [get_frame_object_info a] in
    [w] returns the frame it returns in a fresh process. *)
Theorem X3_resolution_independent_of_history b w calls a :
  Forall (λ wc : world * call, readers_agree b w wc.1 ∧ names_agree w wc.1)
    calls →
  fst (get_frame_object_info b w a (run b calls initial_state))
  = fst (get_frame_object_info b w a initial_state).
Proof.
  intros Hall.
  apply cache_extends_get_frame_object_info, sound_caches_extend_initial.
  - apply image_bases_sound_run. eapply Forall_impl; [exact Hall|]. by intros ? [? ?].
  - apply module_names_sound_run. eapply Forall_impl; [exact Hall|]. by intros ? [? ?].
Qed.

Lemma X3_resolution_independent_of_history_witness :
  fst (get_frame_object_info Scenario.windows Scenario.w 0x5080
         (run Scenario.windows
            [(Scenario.w, CallFrames [0x1050; 0x9000; 0x5090]);
             (Scenario.w, CallImageBase Scenario.libfoo_path)]
            initial_state))
  = {| raw_address := 0x5080; object_address := 0x480;
       object_path := Scenario.libfoo_path |}.
Proof.
  rewrite (X3_resolution_independent_of_history Scenario.windows Scenario.w
             [(Scenario.w, CallFrames [0x1050; 0x9000; 0x5090]);
              (Scenario.w, CallImageBase Scenario.libfoo_path)] 0x5080).
  - reflexivity.
  - repeat constructor.
Defined.

(* ===================================================================== *)
(** ** Repeating a call *)

Lemma get_module_image_base_again b w w' p st :
  get_module_image_base b w' p (snd (get_module_image_base b w p st))
  = (fst (get_module_image_base b w p st),
     snd (get_module_image_base b w p st)).
Proof. apply get_module_image_base_hit, get_module_image_base_stored. Qed.

Lemma count_events_app kind (t1 t2 : list event) :
  count_events kind (t1 ++ t2)
  = (count_events kind t1 + count_events kind t2)%nat.
Proof. unfold count_events. by rewrite List.filter_app, length_app. Qed.

(** X4.  Resolving the same address twice in the same world returns the
    same frame, and the second call is served from the caches: neither
    cache changes, and it performs no binary-format reader call and no
    [GetModuleFileNameA] call.  Unless the address lookup itself fails
    (which on Windows prints its diagnostic again), the second call
    leaves the whole state as it found it. *)
Theorem X4_resolution_idempotent b w a st :
  let '(f1, st1) := get_frame_object_info b w a st in
  let '(f2, st2) := get_frame_object_info b w a st1 in
  f2 = f1
  ∧ image_base_cache st2 = image_base_cache st1
  ∧ module_name_cache st2 = module_name_cache st1
  ∧ count_events is_reader_call (trace st2)
    = count_events is_reader_call (trace st1)
  ∧ count_events is_file_name_query (trace st2)
    = count_events is_file_name_query (trace st1)
  ∧ (¬ module_lookup_fails b w a → st2 = st1).
Proof.
  unfold module_lookup_fails, get_frame_object_info,
    get_frame_object_info_windows, get_frame_object_info_dl_find_object,
    get_frame_object_info_dladdr, bind, ret.
  destruct (target b), (CPPTRACE_HAS_DL_FIND_OBJECT b);
    try (destruct (dl_find_object_query w a) as [result|]; [|by simpl]);
    try (destruct (dladdr w a) as [info|]; [|by simpl]);
    try (destruct (GetModuleHandleExA w a) as [handle|];
         [| simpl; rewrite !count_events_app; simpl;
            split_and!; try done; lia ]);
    try match goal with
    | |- context [get_module_name ?w ?h ?st] =>
        pose proof (get_module_name_stored w h st) as Hn;
        destruct (get_module_name w h st) as [path st'] eqn:Hcall;
        simpl in Hn
    end;
    match goal with
    | |- context [get_module_image_base ?b ?w ?p ?s] =>
        pose proof (get_module_image_base_again b w w p s) as Hagain;
        pose proof (get_module_image_base_names b w p s) as Hnames;
        destruct (get_module_image_base b w p s) as [base st1];
        simpl in Hagain, Hnames
    end;
    try (rewrite (get_module_name_hit w handle st1 path)
           by (by rewrite Hnames));
    rewrite Hagain; by simpl.
Qed.

(* ===================================================================== *)
(** ** The batch loop as a fold *)

Lemma get_frames_object_info_loop_acc b w addresses :
  ∀ frames st,
    get_frames_object_info_loop b w addresses frames st
    = (frames ++ fst (get_frames_object_info_loop b w addresses [] st),
       snd (get_frames_object_info_loop b w addresses [] st)).
Proof.
  induction addresses as [|a rest IH]; intros frames st; simpl.
  - unfold ret. simpl. by rewrite app_nil_r.
  - unfold bind. destruct (get_frame_object_info b w a st) as [f st1].
    rewrite (IH (frames ++ [f])), (IH ([] ++ [f])). simpl.
    by rewrite <- app_assoc.
Qed.

Lemma get_frames_object_info_cons b w a rest st :
  get_frames_object_info b w (a :: rest) st
  = let '(f, st1) := get_frame_object_info b w a st in
    let '(fs, st2) := get_frames_object_info b w rest st1 in
    (f :: fs, st2).
Proof.
  unfold get_frames_object_info. simpl. unfold bind.
  destruct (get_frame_object_info b w a st) as [f st1].
  rewrite get_frames_object_info_loop_acc. simpl.
  by destruct (get_frames_object_info_loop b w rest [] st1).
Qed.

(** X5.  Batches compose: resolving [l1 ++ l2] is resolving [l1], then
    [l2] in the state [l1] left, and concatenating the frames; the empty
    batch returns no frame and leaves the state alone. *)
Theorem X5_batch_append b w l1 l2 st :
  get_frames_object_info b w [] st = ([], st)
  ∧ get_frames_object_info b w (l1 ++ l2) st
    = let '(fs1, st1) := get_frames_object_info b w l1 st in
      let '(fs2, st2) := get_frames_object_info b w l2 st1 in
      (fs1 ++ fs2, st2).
Proof.
  split; [done|]. revert st.
  induction l1 as [|a rest IH]; intros st.
  - simpl. change (get_frames_object_info b w [] st) with
      (@pair (list object_frame) state [] st).
    by destruct (get_frames_object_info b w l2 st).
  - simpl. rewrite !get_frames_object_info_cons.
    destruct (get_frame_object_info b w a st) as [f st1].
    rewrite IH.
    destruct (get_frames_object_info b w rest st1) as [fs1 st2].
    by destruct (get_frames_object_info b w l2 st2).
Qed.

(** X6.  A batch leaves the caches and the trace exactly as the one-shot
    resolutions of its addresses, made one after the other in input
    order, would. *)
Theorem X6_batch_state_is_sequence_of_calls b w addresses st :
  snd (get_frames_object_info b w addresses st)
  = run b ((λ a, (w, CallFrame a)) <$> addresses) st.
Proof.
  revert st. induction addresses as [|a rest IH]; intros st; [done|].
  rewrite get_frames_object_info_cons. simpl.
  rewrite <- IH.
  destruct (get_frame_object_info b w a st) as [f st1]. simpl.
  by destruct (get_frames_object_info b w rest st1).
Qed.

(* ===================================================================== *)
(** ** What a call costs *)

Ltac trace_suffix :=
  simpl; rewrite <- ?app_assoc;
  first [ eexists; split; [reflexivity|]
        | exists []; split; [by rewrite app_nil_r|] ].

Lemma get_frame_object_info_cost b w a st :
  ∃ suffix,
    trace (snd (get_frame_object_info b w a st)) = trace st ++ suffix
    ∧ (count_events is_reader_call suffix <= 1)%nat
    ∧ (count_events is_file_name_query suffix <= 1)%nat
    ∧ (count_events is_stderr_line suffix <= 1)%nat.
Proof.
  unfold_resolver. unfold_caches.
  destruct (target b), (CPPTRACE_HAS_DL_FIND_OBJECT b);
    repeat case_match; simplify_eq/=; trace_suffix;
    unfold count_events; simpl; lia.
Qed.

(** X7.  A batch of [n] addresses only appends to the trace, and what it
    appends holds at most [n] binary-format reader calls, at most [n]
    [GetModuleFileNameA] calls and at most [n] diagnostic lines: each
    address costs at most one of each. *)
Theorem X7_batch_cost b w addresses st :
  ∃ suffix,
    trace (snd (get_frames_object_info b w addresses st)) = trace st ++ suffix
    ∧ (count_events is_reader_call suffix <= length addresses)%nat
    ∧ (count_events is_file_name_query suffix <= length addresses)%nat
    ∧ (count_events is_stderr_line suffix <= length addresses)%nat.
Proof.
  revert st. induction addresses as [|a rest IH]; intros st.
  - exists []. simpl. rewrite app_nil_r. unfold count_events. simpl.
    split_and!; [done | lia | lia | lia].
  - rewrite get_frames_object_info_cons.
    destruct (get_frame_object_info_cost b w a st) as (s1 & Ht1 & ? & ? & ?).
    destruct (get_frame_object_info b w a st) as [f st1]. simpl in Ht1.
    destruct (IH st1) as (s2 & Ht2 & ? & ? & ?).
    destruct (get_frames_object_info b w rest st1) as [fs st2]. simpl in *.
    exists (s1 ++ s2). rewrite Ht2, Ht1, <- app_assoc, !count_events_app.
    split_and!; [done | lia | lia | lia].
Qed.

Lemma get_frame_object_info_posix_trace b w a st :
  target b ≠ Windows →
  module_name_cache (snd (get_frame_object_info b w a st))
    = module_name_cache st
  ∧ ∃ suffix,
      trace (snd (get_frame_object_info b w a st)) = trace st ++ suffix
      ∧ ∀ e, e ∈ suffix → ∃ p, e = ParseBinary p.
Proof.
  intros Hposix. unfold_resolver. unfold_caches.
  destruct (target b), (CPPTRACE_HAS_DL_FIND_OBJECT b); try done;
    repeat case_match; simplify_eq/=; (split; [done|]); trace_suffix;
    intros e He;
    first [ by apply elem_of_nil in He
          | apply list_elem_of_singleton in He; eauto ].
Qed.

(** X8.  On a build that is not Windows, a batch never touches the
    handle-to-path cache, never calls [GetModuleFileNameA] and never
    writes a diagnostic: the only events it adds to the trace are
    binary-format reader calls. *)
Theorem X8_posix_batch_only_parses b w addresses st :
  target b ≠ Windows →
  let st' := snd (get_frames_object_info b w addresses st) in
  module_name_cache st' = module_name_cache st
  ∧ ∃ suffix,
      trace st' = trace st ++ suffix
      ∧ ∀ e, e ∈ suffix → ∃ p, e = ParseBinary p.
Proof.
  intros Hposix. cbn zeta. revert st.
  induction addresses as [|a rest IH]; intros st.
  - split; [done|]. exists []. simpl. rewrite app_nil_r. split; [done|].
    intros e He. by apply elem_of_nil in He.
  - rewrite get_frames_object_info_cons.
    destruct (get_frame_object_info_posix_trace b w a st Hposix)
      as (Hn1 & s1 & Ht1 & Hs1).
    destruct (get_frame_object_info b w a st) as [f st1]. simpl in Hn1, Ht1.
    destruct (IH st1) as (Hn2 & s2 & Ht2 & Hs2).
    destruct (get_frames_object_info b w rest st1) as [fs st2]. simpl in *.
    split; [congruence|].
    exists (s1 ++ s2). rewrite Ht2, Ht1, <- app_assoc. split; [done|].
    intros e He. apply elem_of_app in He as [He|He]; auto.
Qed.

Lemma X8_posix_batch_only_parses_witness :
  target Scenario.linux_dlfo ≠ Windows
  ∧ module_name_cache
      (snd (get_frames_object_info Scenario.linux_dlfo Scenario.w_no_path
              [0x1050; 0x9000; 0x5080] initial_state))
    = module_name_cache initial_state.
Proof.
  assert (Hp : target Scenario.linux_dlfo ≠ Windows) by (simpl; congruence).
  split; [exact Hp|].
  exact (proj1 (X8_posix_batch_only_parses Scenario.linux_dlfo
                  Scenario.w_no_path [0x1050; 0x9000; 0x5080] initial_state
                  Hp)).
Defined.

(* ===================================================================== *)
(** ** The address translation *)

Lemma wrap_recover (a r v : Z) :
  wrap (wrap (wrap (a - r) + v) - v + r) = wrap a.
Proof.
  rewrite wrap_add_l.
  replace (wrap (a - r + v) - v + r) with (wrap (a - r + v) + (r - v)) by lia.
  rewrite wrap_add_l. f_equal. lia.
Qed.

Lemma get_frame_object_info_located b w a st p r :
  fst (locate b w a st) = Some (p, r) →
  fst (get_frame_object_info b w a st)
  = {| raw_address := a;
       object_address :=
         wrap (wrap (a - r) + fst (get_module_image_base b w p st));
       object_path := p |}.
Proof.
  intros Hloc.
  by rewrite get_frame_object_info_value, Hloc, get_module_image_base_value.
Qed.

(** X10.  The object address does not depend on where the loader placed
    the module: two addresses at the same offset from the runtime base
    of the same binary, in two worlds (two runs of the program) that
    load it at different bases, resolve to the same [object_address] and
    [object_path] whenever the image-base cache answers the same base. *)
Theorem X10_load_address_independent b w1 w2 a1 a2 st1 st2 p r1 r2 :
  fst (locate b w1 a1 st1) = Some (p, r1) →
  fst (locate b w2 a2 st2) = Some (p, r2) →
  wrap (a1 - r1) = wrap (a2 - r2) →
  fst (get_module_image_base b w1 p st1)
    = fst (get_module_image_base b w2 p st2) →
  let f1 := fst (get_frame_object_info b w1 a1 st1) in
  let f2 := fst (get_frame_object_info b w2 a2 st2) in
  object_address f1 = object_address f2 ∧ object_path f1 = object_path f2.
Proof.
  intros H1 H2 Hoff Hbase. cbn zeta.
  rewrite (get_frame_object_info_located _ _ _ _ _ _ H1),
    (get_frame_object_info_located _ _ _ _ _ _ H2). simpl.
  by rewrite Hoff, Hbase.
Qed.

Lemma X10_load_address_independent_witness :
  object_address
    (fst (get_frame_object_info Scenario.linux_dladdr Scenario.w 0x5080
            initial_state))
  = object_address
      (fst (get_frame_object_info Scenario.linux_dladdr Relocated.w 0x7080
              initial_state)).
Proof.
  apply (X10_load_address_independent Scenario.linux_dladdr Scenario.w
           Relocated.w 0x5080 0x7080 initial_state initial_state
           Scenario.libfoo_path 0x5000 0x7000); reflexivity.
Defined.



(** X12.  Distinct addresses of one module never collide: two different
    raw addresses (words) that the lookup places in the same module at
    the same runtime base, resolved from the same state, get different
    [object_address]es. *)
Theorem X12_object_address_injective b w a1 a2 st p r :
  is_word a1 → is_word a2 →
  fst (locate b w a1 st) = Some (p, r) →
  fst (locate b w a2 st) = Some (p, r) →
  a1 ≠ a2 →
  object_address (fst (get_frame_object_info b w a1 st))
    ≠ object_address (fst (get_frame_object_info b w a2 st)).
Proof.
  intros Hw1 Hw2 H1 H2 Hne.
  rewrite (get_frame_object_info_located _ _ _ _ _ _ H1),
    (get_frame_object_info_located _ _ _ _ _ _ H2). simpl.
  set (v := fst (get_module_image_base b w p st)). intros Heq.
  apply Hne.
  rewrite <- (wrap_small a1 Hw1), <- (wrap_small a2 Hw2).
  rewrite <- (wrap_recover a1 r v), <- (wrap_recover a2 r v).
  by rewrite Heq.
Qed.

Lemma X12_object_address_injective_witness :
  0x5080 ≠ 0x5090
  ∧ object_address
      (fst (get_frame_object_info Scenario.apple Scenario.w 0x5080
              initial_state))
    ≠ object_address
        (fst (get_frame_object_info Scenario.apple Scenario.w 0x5090
                initial_state)).
Proof.
  assert (Hne : 0x5080 ≠ 0x5090) by lia.
  split; [exact Hne|].
  apply (X12_object_address_injective Scenario.apple Scenario.w 0x5080 0x5090
           initial_state Scenario.libfoo_path 0x5000);
    first [ reflexivity | exact Hne | by vm_compute ].
Defined.

(* ===================================================================== *)
(** ** The two loader interfaces *)

(** X13.  The [_dl_find_object] variant and the [dladdr] variant of
    [get_frame_object_info] differ by exactly the module's image base.
    When the two loader interfaces describe the same module for an
    address ([dladdr] reporting its runtime base, [_dl_find_object] its
    load bias) and the image-base cache answers its link-time base
    [lb], both variants leave the same state and return the same raw
    address and path, but the [_dl_find_object] variant's
    [object_address] is the [dladdr] variant's plus [lb]: the two agree
    exactly when [lb] is zero as a word, and when the lookup fails. *)
Theorem X13_loader_variants_differ_by_image_base b w a st lb :
  loader_views_agree b w a lb →
  (∀ info, dladdr w a = Some info →
           fst (get_module_image_base b w (dli_fname info) st) = lb) →
  let '(f1, st1) := get_frame_object_info_dl_find_object b w a st in
  let '(f2, st2) := get_frame_object_info_dladdr b w a st in
  st1 = st2
  ∧ raw_address f1 = raw_address f2
  ∧ object_path f1 = object_path f2
  ∧ (dladdr w a = None → f1 = f2)
  ∧ (dladdr w a ≠ None →
     object_address f1 = wrap (object_address f2 + lb)
     ∧ (object_address f1 = object_address f2 ↔ wrap lb = 0)).
Proof.
  unfold loader_views_agree, get_frame_object_info_dl_find_object,
    get_frame_object_info_dladdr, bind, ret.
  destruct (dl_find_object_query w a) as [result|],
    (dladdr w a) as [info|]; try done.
  intros [-> ->] Hbase. specialize (Hbase info eq_refl).
  destruct (get_module_image_base b w (dli_fname info) st) as [base st1].
  simpl in *. subst base.
  assert (Hsum : wrap (wrap (a - (dli_fbase info - lb)) + lb)
                 = wrap (wrap (wrap (a - dli_fbase info) + lb) + lb)).
  { rewrite (wrap_add_l (a - dli_fbase info) lb), !wrap_add_l. f_equal. lia. }
  split_and!; [done | done | done | done |].
  intros _. split; [exact Hsum|].
  rewrite Hsum, wrap_add_l.
  rewrite <- (wrap_add_same_iff (wrap (a - dli_fbase info) + lb) lb).
  by rewrite (wrap_add_l (a - dli_fbase info) lb).
Qed.

Lemma X13_loader_variants_differ_by_image_base_witness :
  loader_views_agree Scenario.linux_dlfo Scenario.w 0x5080 0x400
  ∧ object_address
      (fst (get_frame_object_info_dl_find_object Scenario.linux_dlfo
              Scenario.w 0x5080 initial_state))
    = wrap (object_address
              (fst (get_frame_object_info_dladdr Scenario.linux_dlfo
                      Scenario.w 0x5080 initial_state)) + 0x400).
Proof.
  assert (Hv : loader_views_agree Scenario.linux_dlfo Scenario.w 0x5080 0x400)
    by (by vm_compute).
  split; [exact Hv|].
  pose proof (X13_loader_variants_differ_by_image_base Scenario.linux_dlfo
                Scenario.w 0x5080 initial_state 0x400 Hv) as H.
  assert (Hb : ∀ info, dladdr Scenario.w 0x5080 = Some info →
                 fst (get_module_image_base Scenario.linux_dlfo Scenario.w
                        (dli_fname info) initial_state) = 0x400).
  { intros info Hinfo. vm_compute in Hinfo.
    injection Hinfo as <-. reflexivity. }
  specialize (H Hb).
  destruct (get_frame_object_info_dl_find_object Scenario.linux_dlfo
              Scenario.w 0x5080 initial_state) as [f1 st1].
  destruct (get_frame_object_info_dladdr Scenario.linux_dlfo
              Scenario.w 0x5080 initial_state) as [f2 st2].
  destruct H as (_ & _ & _ & _ & H).
  apply H. by vm_compute.
Defined.

(* ===================================================================== *)
(** ** Cache sizes *)

(** After the history so far, each cache holds as many entries as its
    backing call was made. *)
Lemma cache_sizes_primitives b w :
  kept_by_primitives b w
    (λ st, size (image_base_cache st) = count_events is_reader_call (trace st)
           ∧ size (module_name_cache st)
             = count_events is_file_name_query (trace st)).
Proof.
  split_and!.
  - intros p st [Hb Hn]. unfold get_module_image_base.
    destruct (image_base_cache st !! p) eqn:Hp; [done|]. simpl.
    rewrite !count_events_app, map_size_insert_None by done.
    unfold count_events at 2 4. simpl. lia.
  - intros h st [Hb Hn]. unfold get_module_name.
    destruct (module_name_cache st !! h) eqn:Hh; [done|].
    destruct (GetModuleFileNameA w h MAX_PATH); simpl;
      rewrite !count_events_app, map_size_insert_None by done;
      unfold count_events at 2 4; simpl; lia.
  - intros st [Hb Hn]. simpl. rewrite !count_events_app.
    unfold count_events at 2 4. simpl. lia.
Qed.

(** X14.  After any history of calls from process start, the image-base
    cache holds exactly as many paths as the binary-format reader was
    called, and the handle-to-path cache exactly as many handles as
    [GetModuleFileNameA] was called: no call is wasted and no entry is
    ever dropped. *)
Theorem X14_cache_size_is_call_count b calls :
  let st := run b calls initial_state in
  size (image_base_cache st) = count_events is_reader_call (trace st)
  ∧ size (module_name_cache st) = count_events is_file_name_query (trace st).
Proof.
  cbn zeta.
  apply (kept_run b
           (λ st, size (image_base_cache st)
                  = count_events is_reader_call (trace st)
                  ∧ size (module_name_cache st)
                    = count_events is_file_name_query (trace st))).
  - intros w. apply cache_sizes_primitives.
  - by split.
Qed.

(* ===================================================================== *)
(** ** A miss, and the empty path *)

Lemma locate_no_parse b w a st p :
  parse_count p (trace (snd (locate b w a st))) = parse_count p (trace st).
Proof.
  pose proof (capture_safe_no_parse b w a st p) as H.
  by rewrite capture_safe_locate in H.
Qed.

(** X15.  When the lookup places [a] in a module whose path [p] is not
    yet cached, the one-shot resolver calls the binary-format reader on
    [p] exactly once and caches its answer.  That holds for the empty
    path too: when path recovery fails, the reader is called on the
    empty path. *)
Theorem X15_uncached_path_is_parsed b w a st p :
  located_path b w a st = Some p →
  image_base_cache st !! p = None →
  let st' := snd (get_frame_object_info b w a st) in
  parse_count p (trace st') = S (parse_count p (trace st))
  ∧ image_base_cache st' !! p = Some (format_resolver b w p).
Proof.
  unfold located_path. intros Hloc Hmiss. cbn zeta.
  rewrite get_frame_object_info_locate.
  pose proof (locate_bases b w a st) as Hbases.
  pose proof (locate_no_parse b w a st p) as Hcount.
  destruct (locate b w a st) as [[[q r]|] st1]; simpl in *; [|done].
  injection Hloc as ->.
  unfold get_module_image_base. rewrite Hbases, Hmiss. simpl.
  rewrite parse_count_app, parse_count_parse, Hcount, lookup_insert_eq.
  rewrite decide_True by done. split; [lia | done].
Qed.

Lemma X15_uncached_path_is_parsed_witness :
  located_path Scenario.linux_dlfo Scenario.w_no_path 0x1050 initial_state
    = Some empty_path
  ∧ parse_count empty_path
      (trace (snd (get_frame_object_info Scenario.linux_dlfo
                     Scenario.w_no_path 0x1050 initial_state)))
    = 1%nat.
Proof.
  assert (Hl : located_path Scenario.linux_dlfo Scenario.w_no_path 0x1050
                 initial_state = Some empty_path) by reflexivity.
  split; [exact Hl|].
  apply (proj1 (X15_uncached_path_is_parsed Scenario.linux_dlfo
                  Scenario.w_no_path 0x1050 initial_state empty_path Hl
                  eq_refl)).
Defined.

(* ===================================================================== *)
(** ** One cache for both protocols *)



(* ===================================================================== *)
(** ** A failed path lookup and the rest of the module *)

(** X17.  On Windows a failed [GetModuleFileNameA] costs the whole
    module its path: once an address with module handle [h] has been
    resolved while the call fails, every address with that handle,
    resolved at any later point of the process and in any world (also
    one where the call would succeed), gets a frame with the empty
    [object_path]. *)
Theorem X17_failed_module_name_sticks b w a st h :
  target b = Windows →
  GetModuleHandleExA w a = Some h →
  module_name_cache st !! h = None →
  GetModuleFileNameA w h MAX_PATH = None →
  let st1 := snd (get_frame_object_info b w a st) in
  ∀ calls w' a',
    GetModuleHandleExA w' a' = Some h →
    object_path (fst (get_frame_object_info b w' a' (run b calls st1)))
    = empty_path.
Proof.
  intros Htarget Hhandle Hmiss Hfail. cbn zeta.
  assert (Hstored :
    module_name_cache (snd (get_frame_object_info b w a st)) !! h
    = Some empty_path).
  { unfold get_frame_object_info, get_frame_object_info_windows, bind, ret.
    rewrite Htarget, Hhandle.
    pose proof (get_module_name_stored w h st) as Hs.
    pose proof (get_module_name_value w h st) as Hv.
    unfold module_name_of in Hv. rewrite Hmiss, Hfail in Hv. simpl in Hv.
    destruct (get_module_name w h st) as [path st0]. simpl in Hs, Hv.
    subst path.
    pose proof (get_module_image_base_names b w empty_path st0) as Hn.
    destruct (get_module_image_base b w empty_path st0) as [base st1].
    simpl in *. by rewrite Hn. }
  intros calls w' a' Hhandle'.
  apply (entries_kept_run b calls) in Hstored.
  rewrite get_frame_object_info_value, locate_value, Htarget, Hhandle'.
  simpl. unfold module_name_of. unfold HMODULE in *. by rewrite Hstored.
Qed.

Lemma X17_failed_module_name_sticks_witness :
  target Scenario.windows = Windows
  ∧ GetModuleHandleExA Scenario.w_no_path 0x5080 = Some 0x5000
  ∧ GetModuleFileNameA Scenario.w_no_path 0x5000 MAX_PATH = None
  ∧ GetModuleFileNameA Scenario.w 0x5000 MAX_PATH = Some Scenario.libfoo_path
  ∧ object_path
      (fst (get_frame_object_info Scenario.windows Scenario.w 0x5090
              (snd (get_frame_object_info Scenario.windows Scenario.w_no_path
                      0x5080 initial_state))))
    = empty_path.
Proof.
  split; [reflexivity|]. split; [reflexivity|].
  split; [reflexivity|]. split; [reflexivity|].
  exact (X17_failed_module_name_sticks Scenario.windows Scenario.w_no_path
           0x5080 initial_state 0x5000 eq_refl eq_refl eq_refl eq_refl
           [] Scenario.w 0x5090 eq_refl).
Defined.

(* ===================================================================== *)
(** ** Batches: no module at all, and reordering *)

Lemma get_frame_object_info_unlocated_caches b w a st :
  module_lookup_fails b w a →
  image_base_cache (snd (get_frame_object_info b w a st)) = image_base_cache st
  ∧ module_name_cache (snd (get_frame_object_info b w a st))
    = module_name_cache st
  ∧ count_events is_reader_call (trace (snd (get_frame_object_info b w a st)))
    = count_events is_reader_call (trace st)
  ∧ count_events is_file_name_query
      (trace (snd (get_frame_object_info b w a st)))
    = count_events is_file_name_query (trace st).
Proof.
  unfold module_lookup_fails. unfold_resolver. intros Hfail.
  destruct (target b), (CPPTRACE_HAS_DL_FIND_OBJECT b);
    rewrite Hfail; simpl; rewrite ?count_events_app; simpl;
    split_and!; try done; lia.
Qed.

(** X18.  A batch in which no address lies in a module returns one
    unresolved frame per address, in order, and is free: neither cache
    changes, and no binary-format reader call and no
    [GetModuleFileNameA] call is made. *)
Theorem X18_batch_outside_every_module b w addresses st :
  Forall (module_lookup_fails b w) addresses →
  let '(frames, st') := get_frames_object_info b w addresses st in
  frames = unresolved_frame <$> addresses
  ∧ image_base_cache st' = image_base_cache st
  ∧ module_name_cache st' = module_name_cache st
  ∧ count_events is_reader_call (trace st')
    = count_events is_reader_call (trace st)
  ∧ count_events is_file_name_query (trace st')
    = count_events is_file_name_query (trace st).
Proof.
  revert st. induction addresses as [|a rest IH]; intros st Hall.
  - by simpl.
  - apply Forall_cons in Hall as [Ha Hrest].
    rewrite get_frames_object_info_cons.
    pose proof (get_frame_object_info_unlocated b w a st Ha) as Hf.
    destruct (get_frame_object_info_unlocated_caches b w a st Ha)
      as (Hb1 & Hn1 & Hr1 & Hq1).
    destruct (get_frame_object_info b w a st) as [f st1]. simpl in *.
    specialize (IH st1 Hrest).
    destruct (get_frames_object_info b w rest st1) as [fs st2].
    destruct IH as (-> & Hb2 & Hn2 & Hr2 & Hq2). subst f.
    split_and!; [done | congruence | congruence | lia | lia].
Qed.

Lemma X18_batch_outside_every_module_witness :
  Forall (module_lookup_fails Scenario.windows Scenario.w) [0x9000; 0x100]
  ∧ fst (get_frames_object_info Scenario.windows Scenario.w [0x9000; 0x100]
           initial_state)
    = [unresolved_frame 0x9000; unresolved_frame 0x100].
Proof.
  assert (Hall : Forall (module_lookup_fails Scenario.windows Scenario.w)
                   [0x9000; 0x100]) by (repeat constructor).
  split; [exact Hall|].
  pose proof (X18_batch_outside_every_module Scenario.windows Scenario.w
                [0x9000; 0x100] initial_state Hall) as H.
  destruct (get_frames_object_info Scenario.windows Scenario.w [0x9000; 0x100]
              initial_state) as [frames st'].
  exact (proj1 H).
Defined.

(** X19.  The order of the addresses in a batch decides the order of
    the frames and nothing else: from the same state and in the same
    world, a permutation of the addresses yields the same frames,
    permuted. *)
Theorem X19_batch_permutation b w l1 l2 st :
  l1 ≡ₚ l2 →
  fst (get_frames_object_info b w l1 st)
  ≡ₚ fst (get_frames_object_info b w l2 st).
Proof.
  intros Hperm. unfold get_frames_object_info.
  destruct (get_frames_object_info_loop_spec b w st l1 [] st
              (cache_extends_refl b w st)) as [-> _].
  destruct (get_frames_object_info_loop_spec b w st l2 [] st
              (cache_extends_refl b w st)) as [-> _].
  simpl. by apply Permutation_map.
Qed.

Lemma X19_batch_permutation_witness :
  [0x1050; 0x5080] ≡ₚ [0x5080; 0x1050]
  ∧ fst (get_frames_object_info Scenario.linux_dlfo Scenario.w
           [0x1050; 0x5080] initial_state)
    ≡ₚ fst (get_frames_object_info Scenario.linux_dlfo Scenario.w
              [0x5080; 0x1050] initial_state).
Proof.
  assert (Hp : [0x1050; 0x5080] ≡ₚ [0x5080; 0x1050]) by apply perm_swap.
  split; [exact Hp|].
  exact (X19_batch_permutation Scenario.linux_dlfo Scenario.w
           [0x1050; 0x5080] [0x5080; 0x1050] initial_state Hp).
Defined.
